(** * linkerd2 health checks: the check runner and the Kubernetes API probes

    A shallow embedding of [pkg/healthcheck/healthcheck.go] and
    [pkg/k8s/api.go], and the properties of the check-orchestration engine
    and of the version comparator stated in the design document. *)

From Stdlib Require Import String Ascii List ZArith Bool Lia.
From Stdlib Require Import DecimalString.
Import ListNotations.

Local Open Scope list_scope.

(** String concatenation, the [+] of Go strings. *)
Infix "+++" := String.append (right associativity, at level 60).

(** ** Go values shared by the two packages *)

Module Go.

(** A value of Go's [error] interface; [nil] is [None] at type
    [option error].

    - [errorString s] is an error whose [Error()] text is [s].  The errors
      the two packages build with [fmt.Errorf] from a literal format and
      [%s] / [%d] operands are of this form, the verbs expanded.
    - [fmt_Errorf format] is the value of [fmt.Errorf(format)] called with
      no operand and a format that is only known at run time
      (healthcheck.go, line 178); the format is kept uninterpreted.
    - [VersionParseError raw] is the error of the version parser, which
      names the string it could not parse. *)
Inductive error : Type :=
| errorString (text : string)
| fmt_Errorf (format : string)
| VersionParseError (offending : string).

(** The double quote character, as a string. *)
Definition dquote : string := String (ascii_of_nat 34) EmptyString.

(** The [%d] verb applied to an [int]. *)
Definition itoa (n : Z) : string := NilZero.string_of_int (Z.to_int n).

End Go.
Import Go.

(** ** Package healthcheck *)

Module Healthcheck.

(** Modelled from the spec: the generated protobuf package [healthcheckPb]
    is not part of the sources.  The consumed response is an ordered
    sequence of results, each with a subsystem name, a description, a status
    with two meaningful classes (OK and not OK) and a free-text message for
    the user.  [RunChecks] only compares a status with [CheckStatus_OK]. *)
Inductive CheckStatus : Type :=
| CheckStatus_OK
| CheckStatus_FAIL
| CheckStatus_ERROR.

Definition CheckStatus_eqb (a b : CheckStatus) : bool :=
  match a, b with
  | CheckStatus_OK, CheckStatus_OK => true
  | CheckStatus_FAIL, CheckStatus_FAIL => true
  | CheckStatus_ERROR, CheckStatus_ERROR => true
  | _, _ => false
  end.

(** Modelled from the spec: one result of the response ([SubResult] in the
    design document), with the field names that [RunChecks] reads. *)
Record CheckResult : Type := {
  SubsystemName : string;
  CheckDescription : string;
  Status : CheckStatus;
  FriendlyMessageToUser : string
}.

(** Modelled from the spec: the response of the self-check RPC, an ordered
    sequence of results. *)
Record SelfCheckResponse : Type := {
  Results : list CheckResult
}.

(** One call [observe(category, description, err)] of the [CheckObserver].
    The observer is a callback of the caller; a run is described by the
    calls it makes to it, in the order in which it makes them. *)
Record Observation : Type := {
  obs_category : string;
  obs_description : string;
  obs_err : option error
}.

(** [type checker struct].  The two actions are closures over the
    [HealthChecker]: they read and write its fields [kubeApi],
    [httpClient], [kubeVersion], [apiClient] and [latestVersion] and talk to
    the cluster.  All of that is the world [W] that an action receives and
    returns.  A [nil] function field is [None].  [checkRpc] returns the Go
    pair of a response pointer and an error, either of which may be
    [nil]. *)
Record checker (W : Type) : Type := {
  category : string;
  description : string;
  fatal : bool;
  check : option (W -> option error * W);
  checkRpc : option (W -> (option SelfCheckResponse * option error) * W)
}.

Arguments category {W} _.
Arguments description {W} _.
Arguments fatal {W} _.
Arguments check {W} _.
Arguments checkRpc {W} _.

(** [type HealthChecker struct]: the registry of checkers.  The other fields
    are mutable and live in the world [W]. *)
Record HealthChecker (W : Type) : Type := {
  checkers : list (checker W)
}.

Arguments checkers {W} _.

(** [NewHealthChecker]: an empty registry. *)
Definition NewHealthChecker {W : Type} : HealthChecker W :=
  {| checkers := [] |}.

(** Appending one checker, as each [hc.checkers = append(hc.checkers, ...)]
    of the three [Add...Checks] methods does. *)
Definition register {W : Type} (hc : HealthChecker W) (c : checker W)
  : HealthChecker W :=
  {| checkers := checkers hc ++ [c] |}.

Section Registration.

Context {W : Type}.

(** The closures that the [Add...Checks] methods register call the
    collaborators of the package ([k8s], [public], [version] and the
    control plane); here each closure is given by what it does to the
    world.  The categories, descriptions, [fatal] flags, kinds of action and
    the order are those of the source. *)

(** Lines 42-84 *)
Definition AddKubernetesAPIChecks
    (initClient queryApi checkVersion checkNamespace : W -> option error * W)
    (hc : HealthChecker W) : HealthChecker W :=
  let hc := register hc {| category := "kubernetes-api";
                           description := "can initialize the client";
                           fatal := true;
                           check := Some initClient;
                           checkRpc := None |} in
  let hc := register hc {| category := "kubernetes-api";
                           description := "can query the Kubernetes API";
                           fatal := true;
                           check := Some queryApi;
                           checkRpc := None |} in
  let hc := register hc {| category := "kubernetes-api";
                           description :=
                             "is running the minimum Kubernetes API version";
                           fatal := false;
                           check := Some checkVersion;
                           checkRpc := None |} in
  register hc {| category := "kubernetes-api";
                 description := "control plane namespace exists";
                 fatal := true;
                 check := Some checkNamespace;
                 checkRpc := None |}.

(** Lines 86-111 *)
Definition AddLinkerdAPIChecks
    (initClient : W -> option error * W)
    (selfCheck : W -> (option SelfCheckResponse * option error) * W)
    (hc : HealthChecker W) : HealthChecker W :=
  let hc := register hc {| category := "linkerd-api";
                           description := "can initialize the client";
                           fatal := true;
                           check := Some initClient;
                           checkRpc := None |} in
  register hc {| category := "linkerd-api";
                 description := "can query the control plane API";
                 fatal := true;
                 check := None;
                 checkRpc := Some selfCheck |}.

(** Lines 113-145 *)
Definition AddLinkerdVersionChecks
    (getLatest checkClient checkServer : W -> option error * W)
    (hc : HealthChecker W) : HealthChecker W :=
  let hc := register hc {| category := "linkerd-version";
                           description := "can get the latest version";
                           fatal := true;
                           check := Some getLatest;
                           checkRpc := None |} in
  let hc := register hc {| category := "linkerd-version";
                           description := "cli is up-to-date";
                           fatal := false;
                           check := Some checkClient;
                           checkRpc := None |} in
  register hc {| category := "linkerd-version";
                 description := "control plane is up-to-date";
                 fatal := false;
                 check := Some checkServer;
                 checkRpc := None |}.

End Registration.

Section RunChecks.

Context {W : Type}.

(** The variables of a run of [RunChecks]: the local [success], the calls
    made to the observer so far (oldest first), and the world. *)
Record run : Type := {
  success : bool;
  observed : list Observation;
  world : W
}.

(** How an iteration of the [for] loop ends: it falls through to the next
    element ([continue] does the same), it leaves the loop by [break], or
    the goroutine panics on a nil pointer. *)
Inductive signal : Type := Next | Break | Panic.

Definition set_world (w : W) (r : run) : run :=
  {| success := success r; observed := observed r; world := w |}.

(** [success = false] *)
Definition fail (r : run) : run :=
  {| success := false; observed := observed r; world := world r |}.

(** [observe(category, description, err)] *)
Definition observe (cat desc : string) (err : option error) (r : run) : run :=
  {| success := success r;
     observed := observed r ++ [ {| obs_category := cat;
                                    obs_description := desc;
                                    obs_err := err |} ];
     world := world r |}.

(** Lines 151-160: the [check] block. *)
Definition run_check (c : checker W) (r : run) : signal * run :=
  match check c with
  | None => (Next, r)
  | Some action =>
      let (err, w) := action (world r) in
      let r := observe (category c) (description c) err (set_world w r) in
      match err with
      | None => (Next, r)
      | Some _ => (if fatal c then Break else Next, fail r)
      end
  end.

(** Lines 174-180: the body of the loop over [checkRsp.Results]. *)
Definition observe_result (c : checker W) (r : run) (res : CheckResult) : run :=
  let cat := category c +++ "[" +++ SubsystemName res +++ "]" in
  if negb (CheckStatus_eqb (Status res) CheckStatus_OK)
  then observe cat (CheckDescription res)
         (Some (fmt_Errorf (FriendlyMessageToUser res))) (fail r)
  else observe cat (CheckDescription res) None r.

(** Lines 162-182: the [checkRpc] block.  After a call without error the
    response pointer is dereferenced (line 173). *)
Definition run_checkRpc (c : checker W) (r : run) : signal * run :=
  match checkRpc c with
  | None => (Next, r)
  | Some rpc =>
      let '((checkRsp, err), w) := rpc (world r) in
      let r := observe (category c) (description c) err (set_world w r) in
      match err with
      | Some _ => (if fatal c then Break else Next, fail r)
      | None =>
          match checkRsp with
          | None => (Panic, r)
          | Some rsp => (Next, fold_left (observe_result c) (Results rsp) r)
          end
      end
  end.

(** Lines 151-182: one iteration of the loop over [hc.checkers]. *)
Definition iteration (c : checker W) (r : run) : signal * run :=
  match run_check c r with
  | (Next, r1) => run_checkRpc c r1
  | stop => stop
  end.

(** Lines 150-183: the loop over [hc.checkers]. *)
Fixpoint loop (cs : list (checker W)) (r : run) : signal * run :=
  match cs with
  | [] => (Next, r)
  | c :: cs' =>
      match iteration c r with
      | (Next, r') => loop cs' r'
      | stop => stop
      end
  end.

(** What a call of [RunChecks] does: it returns a boolean or panics. *)
Inductive result : Type := Returns (b : bool) | Panics.

(** Line 148 *)
Definition start (w : W) : run :=
  {| success := true; observed := []; world := w |}.

(** Line 185, after the loop has ended with signal [s]. *)
Definition finish (sr : signal * run) : result * list Observation * W :=
  let (s, r) := sr in
  (match s with Panic => Panics | _ => Returns (success r) end,
   observed r, world r).

(** [func (hc *HealthChecker) RunChecks(observe CheckObserver) bool]: the
    result, the calls made to [observe] in order, and the world left
    behind. *)
Definition RunChecks (hc : HealthChecker W) (w : W)
  : result * list Observation * W :=
  finish (loop (checkers hc) (start w)).

Definition returned (x : result * list Observation * W) : result :=
  fst (fst x).

Definition observations (x : result * list Observation * W)
  : list Observation :=
  snd (fst x).

End RunChecks.

Arguments run : clear implicits.

End Healthcheck.

(** ** Package k8s *)

Module K8s.

Local Open Scope Z_scope.

(** A [[3]int]: the components at index 0, 1 and 2. *)
Record Version : Type := {
  major : Z;
  minor : Z;
  patch : Z
}.

(** [var minApiVersion = [3]int{1, 8, 0}] *)
Definition minApiVersion : Version :=
  {| major := 1; minor := 8; patch := 0 |}.

(** *** The version comparator *)

(** Modelled from the spec: the function [isCompatibleVersion] that
    [CheckVersion] calls is not part of the sources.  The comparison policy
    is: actual is compatible with required when [actual.major >
    required.major], or the majors are equal and [actual.minor >
    required.minor], or majors and minors are equal and [actual.patch >=
    required.patch]. *)
Definition isCompatible (actual required : Version) : bool :=
  (major actual >? major required)
  || ((major actual =? major required) && (minor actual >? minor required))
  || ((major actual =? major required) && (minor actual =? minor required)
      && (patch actual >=? patch required)).

(** The call of line 84 passes the minimum first and the actual version
    second. *)
Definition isCompatibleVersion (minimalRequirementVersion actualVersion : Version)
  : bool :=
  isCompatible actualVersion minimalRequirementVersion.

(** *** The version parser

    Modelled from the spec: the parser is not part of the sources; the
    functions of this part, up to [getK8sVersion], follow the parsing policy
    of the design document. *)

Definition is_digit (c : ascii) : bool :=
  (48 <=? nat_of_ascii c)%nat && (nat_of_ascii c <=? 57)%nat.

Definition digit_value (c : ascii) : Z := Z.of_nat (nat_of_ascii c) - 48.

(** The leading non-numeric tag is everything before the first digit. *)
Fixpoint skip_tag (s : string) : string :=
  match s with
  | EmptyString => EmptyString
  | String c s' => if is_digit c then s else skip_tag s'
  end.

(** The longest prefix made of digits, and what follows it. *)
Fixpoint span_digits (s : string) : string * string :=
  match s with
  | EmptyString => (EmptyString, EmptyString)
  | String c s' =>
      if is_digit c
      then let (d, rest) := span_digits s' in (String c d, rest)
      else (EmptyString, s)
  end.

(** The number a string of digits writes in base ten. *)
Fixpoint decimal (acc : Z) (d : string) : Z :=
  match d with
  | EmptyString => acc
  | String c d' => decimal (10 * acc + digit_value c) d'
  end.

(** One purely numeric component: a non-empty run of digits. *)
Definition component (s : string) : option (Z * string) :=
  match span_digits s with
  | (EmptyString, _) => None
  | (d, rest) => Some (decimal 0 d, rest)
  end.

(** The dot that separates two components. *)
Definition dot (s : string) : option string :=
  match s with
  | String "."%char s' => Some s'
  | _ => None
  end.

(** Modelled from the spec: the function [getK8sVersion] that
    [CheckVersion] calls is not part of the sources.  The parsing policy is:
    from the start of the string, or from after a leading non-numeric tag,
    take three dot-separated purely numeric components; stop consuming
    there, what follows is discarded; fewer than three numeric components is
    a parse error, which names the offending string. *)
Definition getK8sVersion (versionString : string) : Version + error :=
  match component (skip_tag versionString) with
  | None => inr (VersionParseError versionString)
  | Some (a, s1) =>
      match dot s1 with
      | None => inr (VersionParseError versionString)
      | Some s1' =>
          match component s1' with
          | None => inr (VersionParseError versionString)
          | Some (b, s2) =>
              match dot s2 with
              | None => inr (VersionParseError versionString)
              | Some s2' =>
                  match component s2' with
                  | None => inr (VersionParseError versionString)
                  | Some (c, _) =>
                      inl {| major := a; minor := b; patch := c |}
                  end
              end
          end
      end
  end.

(** *** api.go *)

(** [version.Info] of apimachinery; its [String()] method returns the
    [GitVersion] field. *)
Record Info : Type := {
  GitVersion : string
}.

Definition Info_String (info : Info) : string := GitVersion info.

(** The parts of an [*http.Response] that api.go reads. *)
Record Response : Type := {
  StatusCode : Z;
  Status : string
}.

Definition StatusOK : Z := 200.
Definition StatusNotFound : Z := 404.

(** [type kubernetesApi struct { *rest.Config }]; only [Host] is read. *)
Record kubernetesApi : Type := {
  Host : string
}.

(** Lines 78-91 *)
Definition CheckVersion (versionInfo : Info) : option error :=
  match getK8sVersion (Info_String versionInfo) with
  | inr err => Some err
  | inl apiVersion =>
      if negb (isCompatibleVersion minApiVersion apiVersion)
      then Some (errorString
                   ("Kubernetes is on version ["
                    +++ itoa (major apiVersion) +++ "."
                    +++ itoa (minor apiVersion) +++ "."
                    +++ itoa (patch apiVersion)
                    +++ "], but version ["
                    +++ itoa (major minApiVersion) +++ "."
                    +++ itoa (minor minApiVersion) +++ "."
                    +++ itoa (patch minApiVersion)
                    +++ "] or more recent is required"))
      else None
  end.

Section Http.

(** The standard library's [net/url] and [net/http], as far as
    [CheckNamespaceExists] uses them: [url.Parse] followed by
    [URL.String()], [http.NewRequest] with a method, a URL and no body, and
    [client.Do] on the request with its five-second deadline.  Each of them
    returns a value or an error, and the source reads the value only when
    the error is nil; a deadline that expires is an error of [client.Do]. *)
Variable Request : Type.
Variable url_Parse : string -> string + error.
Variable http_NewRequest : string -> string -> Request + error.

(** An [*http.Client], by what its [Do] answers. *)
Definition Client : Type := Request -> Response + error.

(** Lines 93-122 *)
Definition CheckNamespaceExists (kubeapi : kubernetesApi) (client : Client)
    (namespace : string) : option error :=
  match url_Parse (Host kubeapi +++ "/api/v1/namespaces/" +++ namespace) with
  | inr err => Some err
  | inl endpoint =>
      match http_NewRequest "GET" endpoint with
      | inr err => Some err
      | inl req =>
          match client req with
          | inr err => Some err
          | inl rsp =>
              if StatusCode rsp =? StatusNotFound
              then Some (errorString
                           ("The " +++ dquote +++ namespace +++ dquote
                            +++ " namespace does not exist"))
              else if negb (StatusCode rsp =? StatusOK)
              then Some (errorString
                           ("Unexpected Kubernetes API response: "
                            +++ Status rsp))
              else None
          end
      end
  end.

End Http.

End K8s.

(** ** Vocabulary of the statements about the check runner *)

Module HealthcheckSpec.

Import Healthcheck.

(** A check with only the local action, and one with only the remote one. *)
Definition LocalAction {W : Type} (c : checker W)
    (action : W -> option error * W) : Prop :=
  check c = Some action /\ checkRpc c = None.

Definition RemoteAction {W : Type} (c : checker W)
    (rpc : W -> (option SelfCheckResponse * option error) * W) : Prop :=
  check c = None /\ checkRpc c = Some rpc.

(** The observer call for the action of [c] itself. *)
Definition top_observation {W : Type} (c : checker W) (err : option error)
  : Observation :=
  {| obs_category := category c;
     obs_description := description c;
     obs_err := err |}.

(** The observer call expected for one result of a response to [c]. *)
Definition result_observation {W : Type} (c : checker W) (res : CheckResult)
  : Observation :=
  {| obs_category := category c +++ "[" +++ SubsystemName res +++ "]";
     obs_description := CheckDescription res;
     obs_err := match Status res with
                | CheckStatus_OK => None
                | _ => Some (fmt_Errorf (FriendlyMessageToUser res))
                end |}.

Definition result_ok (res : CheckResult) : bool :=
  match Status res with
  | CheckStatus_OK => true
  | _ => false
  end.

Definition no_error (o : Observation) : bool :=
  match obs_err o with
  | None => true
  | Some _ => false
  end.

(** No remote action of the registry ever returns a nil response together
    with a nil error. *)
Definition responses_present {W : Type} (hc : HealthChecker W) : Prop :=
  forall c rpc w,
    In c (checkers hc) -> checkRpc c = Some rpc ->
    fst (rpc w) <> (None, None).

(** The local [success] says whether every call made to the observer so
    far carried a nil error. *)
Definition consistent {W : Type} (r : run W) : Prop :=
  success r = forallb no_error (observed r).

(** The run variables [r], with the log [log] and the flag [ok] put in
    front. *)
Definition after {W : Type} (log : list Observation) (ok : bool) (r : run W)
  : run W :=
  {| success := ok && success r;
     observed := log ++ observed r;
     world := world r |}.

(** *** Runs on a journal

    The world of these runs is the journal of the actions that were
    called, oldest first. *)

Definition Journal : Type := list string.

Definition local (name : string) (err : option error)
  : Journal -> option error * Journal :=
  fun j => (err, j ++ [name]).

Definition remote (name : string) (rsp : option SelfCheckResponse)
    (err : option error)
  : Journal -> (option SelfCheckResponse * option error) * Journal :=
  fun j => ((rsp, err), j ++ [name]).

Definition kubernetes_ok : CheckResult :=
  {| SubsystemName := "kubernetes";
     CheckDescription := "control plane can talk to Kubernetes";
     Status := CheckStatus_OK;
     FriendlyMessageToUser := "" |}.

Definition prometheus_failed : CheckResult :=
  {| SubsystemName := "prometheus";
     CheckDescription := "control plane can talk to Prometheus";
     Status := CheckStatus_FAIL;
     FriendlyMessageToUser := "disk full" |}.

Definition two_results : SelfCheckResponse :=
  {| Results := [kubernetes_ok; prometheus_failed] |}.

(** The remote check that [AddLinkerdAPIChecks] registers, with a call
    that succeeds with the two results above. *)
Definition query_control_plane : checker Journal :=
  {| category := "linkerd-api";
     description := "can query the control plane API";
     fatal := true;
     check := None;
     checkRpc := Some (remote "SelfCheck" (Some two_results) None) |}.

(** A remote check that is not fatal and whose call fails. *)
Definition optional_remote : checker Journal :=
  {| category := "linkerd-api";
     description := "can query the control plane API";
     fatal := false;
     check := None;
     checkRpc := Some (remote "SelfCheck" (Some two_results)
                         (Some (errorString "deadline exceeded"))) |}.

(** One remote check that succeeds with two results. *)
Definition one_remote : HealthChecker Journal :=
  register NewHealthChecker query_control_plane.

(** The three version checks, the first of which fails. *)
Definition version_unreachable : HealthChecker Journal :=
  AddLinkerdVersionChecks
    (local "GetLatestVersion" (Some (errorString "no route to host")))
    (local "CheckClientVersion" None)
    (local "CheckServerVersion" None)
    NewHealthChecker.

(** The control plane checks followed by the version checks; the control
    plane answers with the two results above, and the client is out of
    date. *)
Definition api_then_version : HealthChecker Journal :=
  AddLinkerdVersionChecks
    (local "GetLatestVersion" None)
    (local "CheckClientVersion" (Some (errorString "is running version 1")))
    (local "CheckServerVersion" None)
    (AddLinkerdAPIChecks
       (local "NewExternalClient" None)
       (remote "SelfCheck" (Some two_results) None)
       NewHealthChecker).

(** A remote check that is not fatal and fails, then one local check. *)
Definition optional_then_local : HealthChecker Journal :=
  register (register NewHealthChecker optional_remote)
    {| category := "linkerd-version";
       description := "cli is up-to-date";
       fatal := false;
       check := Some (local "CheckClientVersion" None);
       checkRpc := None |}.

(** *** Leaf outcomes

    The leaf outcomes of one check as the design document counts them
    (section 3): exactly one for a local action; for a remote action, exactly
    one for the failure of the call itself, and otherwise one per result of
    the response, and nothing else. *)
Definition leaf_outcomes_local {W : Type} (c : checker W)
    (err : option error) : list Observation :=
  [top_observation c err].

Definition leaf_outcomes_remote {W : Type} (c : checker W)
    (rsp : SelfCheckResponse) (err : option error) : list Observation :=
  match err with
  | Some e => [top_observation c (Some e)]
  | None => map (result_observation c) (Results rsp)
  end.

(** The leaf outcomes, so counted, of the run of [api_then_version] from
    the empty journal: the client is initialised, the self-check answers
    with [two_results], the latest version is found, the client is out of
    date and the server is not. *)
Definition api_then_version_leaf_outcomes : list Observation :=
  let c := fun i => nth i (checkers api_then_version) query_control_plane in
  leaf_outcomes_local (c 0%nat) None
  ++ leaf_outcomes_remote (c 1%nat) two_results None
  ++ leaf_outcomes_local (c 2%nat) None
  ++ leaf_outcomes_local (c 3%nat)
       (Some (errorString "is running version 1"))
  ++ leaf_outcomes_local (c 4%nat) None.

End HealthcheckSpec.

(** ** Vocabulary of the statements about the Kubernetes API probes *)

Module K8sSpec.

Import K8s.

Local Open Scope Z_scope.

(** The lexicographic order on triples, by three-way comparison of the
    components from the left. *)
Definition lex_compare (a b : Version) : comparison :=
  match major a ?= major b with
  | Eq => match minor a ?= minor b with
          | Eq => patch a ?= patch b
          | c => c
          end
  | c => c
  end.

Definition lex_ge (a b : Version) : Prop := lex_compare a b <> Lt.

(** *** Shapes of version strings *)

Fixpoint all_digits (s : string) : bool :=
  match s with
  | EmptyString => true
  | String c s' => is_digit c && all_digits s'
  end.

Fixpoint no_digits (s : string) : bool :=
  match s with
  | EmptyString => true
  | String c s' => negb (is_digit c) && no_digits s'
  end.

Definition starts_with_digit (s : string) : bool :=
  match s with
  | EmptyString => false
  | String c _ => is_digit c
  end.

(** A purely numeric component: one digit or more, and nothing else. *)
Definition numeric (d : string) : Prop :=
  d <> EmptyString /\ all_digits d = true.

(** A string that carries a version: a tag without digits, three numeric
    components separated by dots, and a rest that does not go on with a
    digit. *)
Definition carries (raw tag d1 d2 d3 rest : string) : Prop :=
  raw = tag +++ d1 +++ "." +++ d2 +++ "." +++ d3 +++ rest
  /\ no_digits tag = true
  /\ numeric d1 /\ numeric d2 /\ numeric d3
  /\ starts_with_digit rest = false.

Section Http.

Variable Request : Type.
Variable url_Parse : string -> string + error.
Variable http_NewRequest : string -> string -> Request + error.

(** The response the API gives to the namespace request, when the request
    could be built and sent. *)
Definition responds (kubeapi : kubernetesApi) (client : Client Request)
    (namespace : string) (rsp : Response) : Prop :=
  exists endpoint req,
    url_Parse (Host kubeapi +++ "/api/v1/namespaces/" +++ namespace)
      = inl endpoint
    /\ http_NewRequest "GET" endpoint = inl req
    /\ client req = inl rsp.

End Http.

(** A cluster whose API answers 404 to every request. *)
Definition not_found : Client string :=
  fun _ => inl {| StatusCode := 404; Status := "404 Not Found" |}.

Definition local_cluster : kubernetesApi :=
  {| Host := "https://127.0.0.1:6443" |}.

End K8sSpec.

(** ** Package k8s, continued: the version request *)

Module K8sApi.

Import K8s.

Local Open Scope Z_scope.

Section Http.

(** [net/url] and [net/http] as in [K8s.CheckNamespaceExists].  Here the
    body of the answer is read as well: [client.Do] gives the response
    together with its [Body], [ioutil.ReadAll] reads the body to the end or
    fails, and [json.Unmarshal] fills a zero [version.Info] from the bytes
    and returns it with its error. *)
Variable Request : Type.
Variable Body : Type.
Variable url_Parse : string -> string + error.
Variable http_NewRequest : string -> string -> Request + error.
Variable ioutil_ReadAll : Body -> string + error.
Variable json_Unmarshal : string -> Info * option error.

(** An [*http.Client], by what its [Do] answers: a response and its body,
    or an error. *)
Definition BodyClient : Type := Request -> (Response * Body) + error.

(** Lines 44-76.  The result is the Go pair of a pointer and an error; the
    last [return] gives the pointer to [versionInfo] together with whatever
    error [json.Unmarshal] returned. *)
Definition GetVersionInfo (kubeapi : kubernetesApi) (client : BodyClient)
  : option Info * option error :=
  match url_Parse (Host kubeapi +++ "/version") with
  | inr err => (None, Some err)
  | inl endpoint =>
      match http_NewRequest "GET" endpoint with
      | inr err => (None, Some err)
      | inl req =>
          match client req with
          | inr err => (None, Some err)
          | inl (rsp, body) =>
              if negb (StatusCode rsp =? StatusOK)
              then (None,
                    Some (errorString
                            ("Unexpected Kubernetes API response: "
                             +++ Status rsp)))
              else
                match ioutil_ReadAll body with
                | inr err => (None, Some err)
                | inl bytes =>
                    let (versionInfo, err) := json_Unmarshal bytes in
                    (Some versionInfo, err)
                end
          end
      end
  end.

(** The answer of the API to the version request, when the request could be
    built and sent. *)
Definition answers (kubeapi : kubernetesApi) (client : BodyClient)
    (rsp : Response) (body : Body) : Prop :=
  exists endpoint req,
    url_Parse (Host kubeapi +++ "/version") = inl endpoint
    /\ http_NewRequest "GET" endpoint = inl req
    /\ client req = inl (rsp, body).

End Http.

(** A cluster that answers the version request with the given status and
    body; the bytes of the body are its text, and decoding takes the text
    as the [GitVersion], or fails on the empty text. *)
Definition answering (code : Z) (status body : string)
  : BodyClient string string :=
  fun _ => inl ({| StatusCode := code; Status := status |}, body).

Definition decode (bytes : string) : Info * option error :=
  match bytes with
  | EmptyString =>
      ({| GitVersion := EmptyString |},
       Some (errorString "unexpected end of JSON input"))
  | _ => ({| GitVersion := bytes |}, None)
  end.

End K8sApi.

(** ** More vocabulary for statements about the check runner *)

Module HealthcheckCases.

Import Healthcheck HealthcheckSpec.

(** [hc'] observes what [hc] observes, and then possibly more. *)
Definition extends_run {W : Type} (hc hc' : HealthChecker W) : Prop :=
  forall w, exists rest,
    observations (RunChecks hc' w) = observations (RunChecks hc w) ++ rest.

(** Two checkers that differ at most in their [fatal] flag. *)
Definition same_actions {W : Type} (c c' : checker W) : Prop :=
  category c = category c' /\ description c = description c'
  /\ check c = check c' /\ checkRpc c = checkRpc c'.

(** The observer call [o] is one that the checker [c] can give rise to:
    the call for its local action, with the error that the action returns
    in some world; or the call for its remote action, with the error that
    the RPC returns in some world; or the call for one of the results of a
    response that the RPC returns, in some world, with a nil error. *)
Definition attributed {W : Type} (c : checker W) (o : Observation) : Prop :=
  (exists action w,
     check c = Some action /\ o = top_observation c (fst (action w)))
  \/ (exists rpc w,
        checkRpc c = Some rpc
        /\ o = top_observation c (snd (fst (rpc w))))
  \/ (exists rpc w rsp res,
        checkRpc c = Some rpc
        /\ fst (rpc w) = (Some rsp, None)
        /\ In res (Results rsp)
        /\ o = result_observation c res).

(** No action of [c] ever fails: the local action returns a nil error, the
    remote one a response whose results are all OK and a nil error. *)
Definition always_succeeds {W : Type} (c : checker W) : Prop :=
  (forall action w, check c = Some action -> fst (action w) = None)
  /\ (forall rpc w, checkRpc c = Some rpc ->
        exists rsp, fst (rpc w) = (Some rsp, None)
                    /\ forallb result_ok (Results rsp) = true).

(** [err == nil] *)
Definition is_nil (err : option error) : bool :=
  match err with
  | None => true
  | Some _ => false
  end.

(** A checker with both actions: the local one fails with a given error,
    the remote one answers with the two results of [two_results]. *)
Definition both_actions : checker Journal :=
  {| category := "linkerd-api";
     description := "can query the control plane API";
     fatal := false;
     check := Some (local "NewExternalClient"
                      (Some (errorString "no kubeconfig")));
     checkRpc := Some (remote "SelfCheck" (Some two_results) None) |}.

(** A checker without any action. *)
Definition no_action : checker Journal :=
  {| category := "linkerd-api";
     description := "placeholder";
     fatal := true;
     check := None;
     checkRpc := None |}.

(** A remote check whose call returns neither a response nor an error. *)
Definition silent_remote : checker Journal :=
  {| category := "linkerd-api";
     description := "can query the control plane API";
     fatal := true;
     check := None;
     checkRpc := Some (remote "SelfCheck" None None) |}.

(** The call of the observer for the failed result of [two_results]. *)
Definition prometheus_observation : Observation :=
  {| obs_category := "linkerd-api[prometheus]";
     obs_description := "control plane can talk to Prometheus";
     obs_err := Some (fmt_Errorf "disk full") |}.

(** The control plane checks when the control plane is healthy. *)
Definition healthy_control_plane : HealthChecker Journal :=
  AddLinkerdAPIChecks
    (local "NewExternalClient" None)
    (remote "SelfCheck" (Some {| Results := [kubernetes_ok] |}) None)
    NewHealthChecker.

End HealthcheckCases.

(** ** Properties of the check runner *)

Module HealthcheckProofs.

Import Healthcheck HealthcheckSpec.

Section Runner.

Context {W : Type}.

Implicit Types (c : checker W) (cs : list (checker W)) (r : run W).

Lemma run_eta r :
  {| success := success r; observed := observed r; world := world r |} = r.
Proof. destruct r; reflexivity. Qed.

(** *** The loop over the results of a response *)

Lemma fold_observe_result c rs : forall r,
  fold_left (observe_result c) rs r
  = {| success := success r && forallb result_ok rs;
       observed := observed r ++ map (result_observation c) rs;
       world := world r |}.
Proof.
  induction rs as [|res rs IH]; intros r; simpl.
  - rewrite andb_true_r, app_nil_r. apply eq_sym, run_eta.
  - rewrite IH. unfold observe_result, result_observation, result_ok.
    destruct (Status res); simpl; rewrite <- app_assoc; simpl;
      try reflexivity; now rewrite andb_false_r.
Qed.

(** *** The loop over the checkers *)

Lemma loop_app pre : forall post r,
  loop (pre ++ post) r
  = match loop pre r with
    | (Next, r') => loop post r'
    | stop => stop
    end.
Proof.
  induction pre as [|c pre IH]; intros post r; simpl.
  - reflexivity.
  - destruct (iteration c r) as [[] r']; auto.
Qed.

Lemma loop_cons_after pre c post r r1 :
  loop pre r = (Next, r1) ->
  loop (pre ++ c :: post) r
  = match iteration c r1 with
    | (Next, r2) => loop post r2
    | stop => stop
    end.
Proof. intros H. rewrite loop_app, H. reflexivity. Qed.

(** *** What one iteration does, case by case *)

Lemma iteration_local_ok c action r w2 :
  LocalAction c action -> action (world r) = (None, w2) ->
  iteration c r
  = (Next, observe (category c) (description c) None (set_world w2 r)).
Proof.
  intros [Hc Hr] Ha. unfold iteration, run_check, run_checkRpc.
  rewrite Hc, Ha; simpl. rewrite Hr. reflexivity.
Qed.

Lemma iteration_local_error c action r e w2 :
  check c = Some action -> action (world r) = (Some e, w2) ->
  fatal c = true ->
  iteration c r
  = (Break, fail (observe (category c) (description c) (Some e)
                    (set_world w2 r))).
Proof.
  intros Hc Ha Hf. unfold iteration, run_check.
  rewrite Hc, Ha, Hf. reflexivity.
Qed.

Lemma iteration_local c action r err w2 :
  LocalAction c action -> action (world r) = (err, w2) ->
  iteration c r
  = match err with
    | None =>
        (Next, observe (category c) (description c) None (set_world w2 r))
    | Some e =>
        (if fatal c then Break else Next,
         fail (observe (category c) (description c) (Some e)
                 (set_world w2 r)))
    end.
Proof.
  intros [Hc Hr] Ha. unfold iteration, run_check, run_checkRpc.
  rewrite Hc, Ha. destruct err as [e|]; simpl.
  - destruct (fatal c); [reflexivity|]. now rewrite Hr.
  - now rewrite Hr.
Qed.

Lemma iteration_remote_error c rpc r rsp e w2 :
  RemoteAction c rpc -> rpc (world r) = ((rsp, Some e), w2) ->
  iteration c r
  = (if fatal c then Break else Next,
     fail (observe (category c) (description c) (Some e) (set_world w2 r))).
Proof.
  intros [Hc Hr] Ha. unfold iteration, run_check, run_checkRpc.
  rewrite Hc, Hr, Ha. reflexivity.
Qed.

Lemma iteration_remote_ok c rpc r rsp w2 :
  RemoteAction c rpc -> rpc (world r) = ((Some rsp, None), w2) ->
  iteration c r
  = (Next,
     {| success := success r && forallb result_ok (Results rsp);
        observed := observed r
                    ++ top_observation c None
                       :: map (result_observation c) (Results rsp);
        world := w2 |}).
Proof.
  intros [Hc Hr] Ha. unfold iteration, run_check, run_checkRpc.
  rewrite Hc, Hr, Ha. rewrite fold_observe_result. simpl.
  rewrite <- app_assoc. reflexivity.
Qed.

(** *** The local [success] says whether an error has been observed *)

Lemma forallb_result_observation c rs :
  forallb no_error (map (result_observation c) rs) = forallb result_ok rs.
Proof.
  induction rs as [|res rs IH]; simpl; [reflexivity|].
  rewrite IH. unfold no_error, result_ok; simpl.
  destruct (Status res); reflexivity.
Qed.

Lemma consistent_observe_ok cat desc w r :
  consistent r -> consistent (observe cat desc None (set_world w r)).
Proof.
  unfold consistent; simpl. intros ->.
  rewrite forallb_app; simpl. now rewrite andb_true_r.
Qed.

Lemma consistent_observe_error cat desc e w r :
  consistent (fail (observe cat desc (Some e) (set_world w r))).
Proof.
  unfold consistent; simpl.
  rewrite forallb_app; simpl. now rewrite andb_false_r.
Qed.

Lemma consistent_results c rs r :
  consistent r -> consistent (fold_left (observe_result c) rs r).
Proof.
  unfold consistent. rewrite fold_observe_result; simpl. intros ->.
  now rewrite forallb_app, forallb_result_observation.
Qed.

Lemma run_check_consistent c r :
  consistent r -> consistent (snd (run_check c r)).
Proof.
  intros H. unfold run_check. destruct (check c) as [action|]; [|exact H].
  destruct (action (world r)) as [[e|] w1]; simpl.
  - apply consistent_observe_error.
  - now apply consistent_observe_ok.
Qed.

Lemma run_checkRpc_consistent c r :
  consistent r -> consistent (snd (run_checkRpc c r)).
Proof.
  intros H. unfold run_checkRpc. destruct (checkRpc c) as [rpc|]; [|exact H].
  destruct (rpc (world r)) as [[rsp [e|]] w1]; simpl.
  - apply consistent_observe_error.
  - destruct rsp as [rsp|]; simpl.
    + now apply consistent_results, consistent_observe_ok.
    + now apply consistent_observe_ok.
Qed.

Lemma iteration_consistent c r :
  consistent r -> consistent (snd (iteration c r)).
Proof.
  intros H. unfold iteration.
  pose proof (run_check_consistent c r H) as H1.
  destruct (run_check c r) as [[] r1]; simpl in *; auto.
  now apply run_checkRpc_consistent.
Qed.

Lemma loop_consistent cs : forall r,
  consistent r -> consistent (snd (loop cs r)).
Proof.
  induction cs as [|c cs IH]; intros r H; simpl; [exact H|].
  pose proof (iteration_consistent c r H) as H1.
  destruct (iteration c r) as [[] r1]; simpl in *; auto.
Qed.

(** *** Panics only come from a nil response *)

Lemma iteration_no_panic c r :
  (forall rpc w, checkRpc c = Some rpc -> fst (rpc w) <> (None, None)) ->
  fst (iteration c r) <> Panic.
Proof.
  intros H. unfold iteration, run_check.
  assert (forall r', fst (run_checkRpc c r') <> Panic) as Hrpc.
  { intros r'. unfold run_checkRpc.
    destruct (checkRpc c) as [rpc|]; simpl; [|discriminate].
    specialize (H rpc (world r') eq_refl).
    destruct (rpc (world r')) as [[[rsp|] [e|]] w1]; simpl in *;
      try discriminate; try (destruct (fatal c); discriminate).
    now contradiction H. }
  destruct (check c) as [action|]; [|apply Hrpc].
  destruct (action (world r)) as [[e|] w1]; simpl; [|apply Hrpc].
  destruct (fatal c); [discriminate | apply Hrpc].
Qed.

Lemma loop_no_panic cs : forall r,
  (forall c rpc w, In c cs -> checkRpc c = Some rpc ->
                   fst (rpc w) <> (None, None)) ->
  fst (loop cs r) <> Panic.
Proof.
  induction cs as [|c cs IH]; intros r H; simpl; [discriminate|].
  assert (fst (iteration c r) <> Panic) as Hc.
  { apply iteration_no_panic. intros rpc w. apply H. now left. }
  destruct (iteration c r) as [[] r1]; simpl in *; try discriminate.
  - apply IH. intros c' rpc w Hin. apply H. now right.
  - now contradiction Hc.
Qed.

(** *** The checks that follow do not depend on what was observed before *)

Lemma run_check_after log ok c r :
  run_check c (after log ok r)
  = (fst (run_check c r), after log ok (snd (run_check c r))).
Proof.
  unfold run_check. destruct (check c) as [action|]; [|reflexivity]. simpl.
  destruct (action (world r)) as [[e|] w1]; simpl;
    unfold after, fail, observe, set_world; simpl;
    rewrite <- ?app_assoc, ?andb_false_r; reflexivity.
Qed.

Lemma fold_results_after log ok c rs : forall r,
  fold_left (observe_result c) rs (after log ok r)
  = after log ok (fold_left (observe_result c) rs r).
Proof.
  intros r. rewrite !fold_observe_result. unfold after; simpl.
  now rewrite andb_assoc, app_assoc.
Qed.

Lemma run_checkRpc_after log ok c r :
  run_checkRpc c (after log ok r)
  = (fst (run_checkRpc c r), after log ok (snd (run_checkRpc c r))).
Proof.
  unfold run_checkRpc. destruct (checkRpc c) as [rpc|]; [|reflexivity]. simpl.
  destruct (rpc (world r)) as [[rsp [e|]] w1]; simpl.
  - unfold after, fail, observe, set_world; simpl.
    now rewrite <- app_assoc, andb_false_r.
  - destruct rsp as [rsp|]; simpl.
    + f_equal.
      change (observe (category c) (description c) None
                (set_world w1 (after log ok r)))
        with (observe (category c) (description c) None
                {| success := ok && success r;
                   observed := log ++ observed r; world := w1 |}).
      replace (observe (category c) (description c) None
                 {| success := ok && success r;
                    observed := log ++ observed r; world := w1 |})
        with (after log ok (observe (category c) (description c) None
                              (set_world w1 r)))
        by (unfold after, observe; simpl; now rewrite app_assoc).
      apply fold_results_after.
    + unfold after, observe, set_world; simpl. now rewrite <- app_assoc.
Qed.

Lemma iteration_after log ok c r :
  iteration c (after log ok r)
  = (fst (iteration c r), after log ok (snd (iteration c r))).
Proof.
  unfold iteration. rewrite run_check_after.
  destruct (run_check c r) as [[] r1]; simpl; try reflexivity.
  apply run_checkRpc_after.
Qed.

Lemma loop_after log ok cs : forall r,
  loop cs (after log ok r)
  = (fst (loop cs r), after log ok (snd (loop cs r))).
Proof.
  induction cs as [|c cs IH]; intros r; simpl; [reflexivity|].
  rewrite iteration_after.
  destruct (iteration c r) as [[] r1]; simpl; auto.
Qed.

Lemma after_start r : after (observed r) (success r) (start (world r)) = r.
Proof.
  unfold after, start; simpl. rewrite andb_true_r, app_nil_r. apply run_eta.
Qed.

(** Running [cs] from the run variables [r] is running it afresh from the
    world of [r], with the log and the [success] of [r] put in front. *)
Lemma loop_from cs r :
  loop cs r
  = (fst (loop cs (start (world r))),
     after (observed r) (success r) (snd (loop cs (start (world r))))).
Proof. rewrite <- loop_after, after_start. reflexivity. Qed.

Lemma observations_finish (sr : signal * run W) :
  observations (finish sr) = observed (snd sr).
Proof. destruct sr as [s r]. reflexivity. Qed.

Lemma returned_finish (sr : signal * run W) :
  returned (finish sr)
  = match fst sr with
    | Panic => Panics
    | _ => Returns (success (snd sr))
    end.
Proof. destruct sr as [s r]. reflexivity. Qed.

(** The calls observed from the run variables [r] on are those observed up
    to [r], then those of a run of [cs] that starts in the world of [r]. *)
Lemma observations_from cs r :
  observations (finish (loop cs r))
  = observed r ++ observations (RunChecks {| checkers := cs |} (world r)).
Proof.
  unfold RunChecks; simpl. rewrite !observations_finish.
  rewrite (loop_from cs r). reflexivity.
Qed.

(** Once [success] is false, [RunChecks] does not return [true]. *)
Lemma returned_from_failure cs r :
  success r = false -> returned (finish (loop cs r)) <> Returns true.
Proof.
  intros Hs. rewrite returned_finish, (loop_from cs r); simpl.
  rewrite Hs; simpl.
  destruct (fst (loop cs (start (world r)))); discriminate.
Qed.

(** *** The claims *)

(** C10: a health checker that [NewHealthChecker] has just built, with no
    check registered, runs to the end: [RunChecks] returns [true], the
    observer is not called and the world is untouched. *)
Theorem RunChecks_NewHealthChecker (w : W) :
  RunChecks NewHealthChecker w = (Returns true, [], w).
Proof. reflexivity. Qed.

(** C1, as the code has it: when the RPC call of a remote check succeeds,
    [RunChecks] first calls the observer once for the call itself, with the
    category and the description of the check and a nil error, and then once
    per result of the response, in the order of the response, with the
    category suffixed by the subsystem name in brackets and with an error
    built from the message for the user exactly when the status is not OK;
    the loop then goes on with the next checker.  A remote check that is
    alone in the registry and succeeds with two results gives three calls
    of the observer. *)
Theorem RunChecks_remote_success_observations
    (hc : HealthChecker W) pre c post (w : W) r1 rpc rsp w2 :
  checkers hc = pre ++ c :: post ->
  loop pre (start w) = (Next, r1) ->
  RemoteAction c rpc ->
  rpc (world r1) = ((Some rsp, None), w2) ->
  RunChecks hc w
  = finish (loop post
              {| success := success r1 && forallb result_ok (Results rsp);
                 observed :=
                   observed r1
                   ++ {| obs_category := category c;
                         obs_description := description c;
                         obs_err := None |}
                      :: map (result_observation c) (Results rsp);
                 world := w2 |})
  /\ observations (RunChecks hc w)
     = observed r1
       ++ {| obs_category := category c;
             obs_description := description c;
             obs_err := None |}
          :: map (result_observation c) (Results rsp)
       ++ observations (RunChecks {| checkers := post |} w2)
  /\ (forall res,
        obs_category (result_observation c res)
        = category c +++ "[" +++ SubsystemName res +++ "]"
        /\ obs_description (result_observation c res) = CheckDescription res
        /\ (obs_err (result_observation c res) = None
            <-> Status res = CheckStatus_OK)
        /\ (Status res <> CheckStatus_OK ->
            obs_err (result_observation c res)
            = Some (fmt_Errorf (FriendlyMessageToUser res))))
  /\ (pre = [] -> post = [] -> length (Results rsp) = 2%nat ->
      length (observations (RunChecks hc w)) = 3%nat).
Proof.
  intros Hcs Hpre Hrem Hrpc.
  assert (RunChecks hc w
          = finish (loop post
              {| success := success r1 && forallb result_ok (Results rsp);
                 observed :=
                   observed r1
                   ++ top_observation c None
                      :: map (result_observation c) (Results rsp);
                 world := w2 |})) as Hrun.
  { unfold RunChecks. rewrite Hcs, (loop_cons_after _ _ _ _ _ Hpre).
    rewrite (iteration_remote_ok _ _ _ _ _ Hrem Hrpc). reflexivity. }
  assert (observations (RunChecks hc w)
          = observed r1
            ++ top_observation c None
               :: map (result_observation c) (Results rsp)
            ++ observations (RunChecks {| checkers := post |} w2)) as Hobs.
  { rewrite Hrun, observations_from; simpl.
    rewrite <- app_assoc. reflexivity. }
  split; [exact Hrun|]. split; [exact Hobs|]. split.
  - intros res. unfold result_observation; simpl.
    repeat split; destruct (Status res); intros; congruence.
  - intros Hp Ho Hlen. rewrite Hobs. subst pre post.
    injection Hpre as <-. simpl.
    rewrite length_app, length_map, Hlen. reflexivity.
Qed.

(** C2: when the checks before check [c] have run to the end, [c] is fatal
    and its action returns an error (the local action, or the RPC call of a
    remote check), [RunChecks] returns [false] and the call of the observer
    for that error is the last one of the run: none of the checks after [c]
    is run. *)
Theorem RunChecks_fatal_error_halts
    (hc : HealthChecker W) pre c post (w : W) r1 e w2 :
  checkers hc = pre ++ c :: post ->
  loop pre (start w) = (Next, r1) ->
  fatal c = true ->
  (exists action, check c = Some action /\ action (world r1) = (Some e, w2))
  \/ (exists rpc rsp,
        RemoteAction c rpc /\ rpc (world r1) = ((rsp, Some e), w2)) ->
  RunChecks hc w
  = (Returns false,
     observed r1 ++ [ {| obs_category := category c;
                         obs_description := description c;
                         obs_err := Some e |} ],
     w2).
Proof.
  intros Hcs Hpre Hf Hact.
  unfold RunChecks. rewrite Hcs, (loop_cons_after _ _ _ _ _ Hpre).
  destruct Hact as [(action & Hc & Ha) | (rpc & rsp & Hrem & Ha)].
  - rewrite (iteration_local_error _ _ _ _ _ Hc Ha Hf). reflexivity.
  - rewrite (iteration_remote_error _ _ _ _ _ _ Hrem Ha), Hf. reflexivity.
Qed.

(** C5: when the RPC call of a remote check that is not fatal returns an
    error, the observer is called once for the check, with its category, its
    description and the error, [success] becomes [false], no result of the
    response is looked at, and the loop goes on with the next checker. *)
Theorem RunChecks_remote_error_continues
    (hc : HealthChecker W) pre c post (w : W) r1 rpc rsp e w2 :
  checkers hc = pre ++ c :: post ->
  loop pre (start w) = (Next, r1) ->
  RemoteAction c rpc ->
  fatal c = false ->
  rpc (world r1) = ((rsp, Some e), w2) ->
  RunChecks hc w
  = finish (loop post
              {| success := false;
                 observed :=
                   observed r1 ++ [ {| obs_category := category c;
                                       obs_description := description c;
                                       obs_err := Some e |} ];
                 world := w2 |})
  /\ observations (RunChecks hc w)
     = observed r1
       ++ {| obs_category := category c;
             obs_description := description c;
             obs_err := Some e |}
          :: observations (RunChecks {| checkers := post |} w2)
  /\ returned (RunChecks hc w) <> Returns true.
Proof.
  intros Hcs Hpre Hrem Hf Hrpc.
  assert (RunChecks hc w
          = finish (loop post
              {| success := false;
                 observed := observed r1 ++ [top_observation c (Some e)];
                 world := w2 |})) as Hrun.
  { unfold RunChecks. rewrite Hcs, (loop_cons_after _ _ _ _ _ Hpre).
    rewrite (iteration_remote_error _ _ _ _ _ _ Hrem Hrpc), Hf.
    reflexivity. }
  split; [exact Hrun|]. rewrite Hrun. split.
  - rewrite observations_from; simpl. rewrite <- app_assoc. reflexivity.
  - now apply returned_from_failure.
Qed.

(** C6: when the RPC call of a fatal remote check succeeds and one of the
    results of the response is not OK, the run does not stop there: every
    result of the response is observed, the loop goes on with the next
    checker, and only [success] is lowered to [false]. *)
Theorem RunChecks_fatal_remote_result_failure_continues
    (hc : HealthChecker W) pre c post (w : W) r1 rpc rsp w2 res :
  checkers hc = pre ++ c :: post ->
  loop pre (start w) = (Next, r1) ->
  RemoteAction c rpc ->
  fatal c = true ->
  rpc (world r1) = ((Some rsp, None), w2) ->
  In res (Results rsp) ->
  Status res <> CheckStatus_OK ->
  RunChecks hc w
  = finish (loop post
              {| success := false;
                 observed :=
                   observed r1
                   ++ {| obs_category := category c;
                         obs_description := description c;
                         obs_err := None |}
                      :: map (result_observation c) (Results rsp);
                 world := w2 |})
  /\ observations (RunChecks hc w)
     = observed r1
       ++ {| obs_category := category c;
             obs_description := description c;
             obs_err := None |}
          :: map (result_observation c) (Results rsp)
       ++ observations (RunChecks {| checkers := post |} w2)
  /\ returned (RunChecks hc w) <> Returns true.
Proof.
  intros Hcs Hpre Hrem Hf Hrpc Hin Hst.
  assert (forallb result_ok (Results rsp) = false) as Hall.
  { apply not_true_is_false. intros Hall.
    rewrite forallb_forall in Hall. specialize (Hall res Hin).
    unfold result_ok in Hall. destruct (Status res); congruence. }
  assert (RunChecks hc w
          = finish (loop post
              {| success := false;
                 observed :=
                   observed r1
                   ++ top_observation c None
                      :: map (result_observation c) (Results rsp);
                 world := w2 |})) as Hrun.
  { unfold RunChecks. rewrite Hcs, (loop_cons_after _ _ _ _ _ Hpre).
    rewrite (iteration_remote_ok _ _ _ _ _ Hrem Hrpc), Hall, andb_false_r.
    reflexivity. }
  split; [exact Hrun|]. rewrite Hrun. split.
  - rewrite observations_from; simpl. rewrite <- app_assoc. reflexivity.
  - now apply returned_from_failure.
Qed.

(** C7, as the code has it: the observer is called in the order in which
    the checks are registered and run, exactly once per outcome, failing
    outcomes included, and once more, with a nil error, for each remote call
    that succeeds.  The calls of a run are those of the checks before [c],
    then those of [c], then those of the checks after it unless [c] stops
    the run.  A local action gives exactly one call, which carries the error
    it returned or nil.  A remote call that fails gives exactly one call,
    which carries the error.  A remote call that succeeds gives one call for
    the call itself, with a nil error, and then exactly one call per result,
    in the order of the response; the call for a result carries a nil error
    when the result is OK and the error built from its message
    otherwise. *)
Theorem RunChecks_observes_each_outcome_once
    (hc : HealthChecker W) pre c post (w : W) r1 :
  checkers hc = pre ++ c :: post ->
  loop pre (start w) = (Next, r1) ->
  observations (RunChecks hc w)
  = observations (RunChecks {| checkers := pre |} w)
    ++ observations (RunChecks {| checkers := c :: post |} (world r1))
  /\ (forall action err w2,
        LocalAction c action ->
        action (world r1) = (err, w2) ->
        observations (RunChecks hc w)
        = observations (RunChecks {| checkers := pre |} w)
          ++ {| obs_category := category c;
                obs_description := description c;
                obs_err := err |}
             :: match err with
                | Some _ =>
                    if fatal c then []
                    else observations (RunChecks {| checkers := post |} w2)
                | None => observations (RunChecks {| checkers := post |} w2)
                end)
  /\ (forall rpc rsp e w2,
        RemoteAction c rpc ->
        rpc (world r1) = ((rsp, Some e), w2) ->
        observations (RunChecks hc w)
        = observations (RunChecks {| checkers := pre |} w)
          ++ {| obs_category := category c;
                obs_description := description c;
                obs_err := Some e |}
             :: (if fatal c then []
                 else observations (RunChecks {| checkers := post |} w2)))
  /\ (forall rpc rsp w2,
        RemoteAction c rpc ->
        rpc (world r1) = ((Some rsp, None), w2) ->
        observations (RunChecks hc w)
        = observations (RunChecks {| checkers := pre |} w)
          ++ {| obs_category := category c;
                obs_description := description c;
                obs_err := None |}
             :: map (result_observation c) (Results rsp)
          ++ observations (RunChecks {| checkers := post |} w2))
  /\ (forall rpc rsp w2 before res after,
        RemoteAction c rpc ->
        rpc (world r1) = ((Some rsp, None), w2) ->
        Results rsp = before ++ res :: after ->
        observations (RunChecks hc w)
        = observations (RunChecks {| checkers := pre |} w)
          ++ {| obs_category := category c;
                obs_description := description c;
                obs_err := None |}
             :: map (result_observation c) before
          ++ {| obs_category :=
                  category c +++ "[" +++ SubsystemName res +++ "]";
                obs_description := CheckDescription res;
                obs_err :=
                  match Status res with
                  | CheckStatus_OK => None
                  | _ => Some (fmt_Errorf (FriendlyMessageToUser res))
                  end |}
             :: map (result_observation c) after
          ++ observations (RunChecks {| checkers := post |} w2)).
Proof.
  intros Hcs Hpre.
  assert (observations (RunChecks {| checkers := pre |} w) = observed r1)
    as Hfirst.
  { unfold RunChecks; simpl. rewrite Hpre. reflexivity. }
  rewrite Hfirst.
  assert (forall rpc rsp w2,
            RemoteAction c rpc ->
            rpc (world r1) = ((Some rsp, None), w2) ->
            observations (RunChecks hc w)
            = observed r1
              ++ top_observation c None
                 :: map (result_observation c) (Results rsp)
              ++ observations (RunChecks {| checkers := post |} w2))
    as Hok.
  { intros rpc rsp w2 Hrem Hrpc.
    unfold RunChecks at 1. rewrite Hcs, (loop_cons_after _ _ _ _ _ Hpre).
    rewrite (iteration_remote_ok _ _ _ _ _ Hrem Hrpc).
    rewrite observations_from; simpl. rewrite <- app_assoc. reflexivity. }
  split; [|split; [|split; [|split]]].
  - unfold RunChecks at 1. rewrite Hcs, loop_app, Hpre.
    apply observations_from.
  - intros action err w2 Hloc Ha.
    unfold RunChecks at 1. rewrite Hcs, (loop_cons_after _ _ _ _ _ Hpre).
    rewrite (iteration_local _ _ _ _ _ Hloc Ha).
    destruct err as [e|]; [destruct (fatal c)|].
    + reflexivity.
    + rewrite observations_from; simpl. rewrite <- app_assoc. reflexivity.
    + rewrite observations_from; simpl. rewrite <- app_assoc. reflexivity.
  - intros rpc rsp e w2 Hrem Hrpc.
    unfold RunChecks at 1. rewrite Hcs, (loop_cons_after _ _ _ _ _ Hpre).
    rewrite (iteration_remote_error _ _ _ _ _ _ Hrem Hrpc).
    destruct (fatal c).
    + reflexivity.
    + rewrite observations_from; simpl. rewrite <- app_assoc. reflexivity.
  - exact Hok.
  - intros rpc rsp w2 before res rest Hrem Hrpc Hres.
    rewrite (Hok rpc rsp w2 Hrem Hrpc), Hres, map_app. simpl.
    rewrite <- app_assoc. reflexivity.
Qed.

(** C3: when [RunChecks] returns, it returns [true] exactly when none of
    the calls it made to the observer carried an error; it does return
    whenever no remote action gives a nil response with a nil error; and
    failure is sticky: after a call of the observer with an error, whatever
    the later calls carry, [RunChecks] does not return [true]. *)
Theorem RunChecks_true_iff_no_error (hc : HealthChecker W) (w : W) :
  (forall b, returned (RunChecks hc w) = Returns b ->
             (b = true <->
              Forall (fun o => obs_err o = None)
                     (observations (RunChecks hc w))))
  /\ (responses_present hc -> exists b, returned (RunChecks hc w) = Returns b)
  /\ (forall before o after,
        observations (RunChecks hc w) = before ++ o :: after ->
        obs_err o <> None ->
        returned (RunChecks hc w) <> Returns true).
Proof.
  assert (forall b, returned (RunChecks hc w) = Returns b ->
                    b = forallb no_error (observations (RunChecks hc w)))
    as Hinv.
  { intros b. unfold RunChecks.
    rewrite returned_finish, observations_finish.
    pose proof (loop_consistent (checkers hc) (start w) eq_refl) as Hc.
    unfold consistent in Hc. rewrite <- Hc.
    destruct (fst (loop (checkers hc) (start w))); congruence. }
  assert (forall os, forallb no_error os = true
                     <-> Forall (fun o => obs_err o = None) os) as Hall.
  { intros os. rewrite forallb_forall, Forall_forall.
    split; intros H o Hin; specialize (H o Hin); unfold no_error in *;
      destruct (obs_err o); congruence. }
  split; [|split].
  - intros b Hb. rewrite <- Hall, <- (Hinv b Hb). reflexivity.
  - intros Hpresent. unfold RunChecks. rewrite returned_finish.
    pose proof (loop_no_panic (checkers hc) (start w) Hpresent) as Hnp.
    destruct (fst (loop (checkers hc) (start w))); eauto.
    now contradiction Hnp.
  - intros before o rest Hobs Herr Hret.
    apply Hinv in Hret. rewrite Hobs, forallb_app in Hret. simpl in Hret.
    unfold no_error at 2 in Hret. destruct (obs_err o); [|congruence].
    simpl in Hret. rewrite andb_false_r in Hret. discriminate.
Qed.

End Runner.

(** *** The claims on these runs *)

Local Open Scope string_scope.
Local Open Scope list_scope.

(** C1 as the design document states it fails on the remote check that
    succeeds with two results: the observer is called three times, the first
    time for the call itself, and not only once per result. *)
Lemma RunChecks_remote_success_counterexample :
  observations (RunChecks one_remote [])
  = [ {| obs_category := "linkerd-api";
         obs_description := "can query the control plane API";
         obs_err := None |};
      {| obs_category := "linkerd-api[kubernetes]";
         obs_description := "control plane can talk to Kubernetes";
         obs_err := None |};
      {| obs_category := "linkerd-api[prometheus]";
         obs_description := "control plane can talk to Prometheus";
         obs_err := Some (fmt_Errorf "disk full") |} ]
  /\ observations (RunChecks one_remote [])
     <> map (result_observation query_control_plane) (Results two_results)
  /\ length (observations (RunChecks one_remote [])) <> 2%nat.
Proof.
  split; [reflexivity|]. split; [discriminate|]. simpl. lia.
Qed.

Lemma RunChecks_remote_success_observations_witness :
  checkers one_remote = [] ++ query_control_plane :: []
  /\ loop [] (start ([] : Journal)) = (Next, start [])
  /\ RemoteAction query_control_plane
       (remote "SelfCheck" (Some two_results) None)
  /\ remote "SelfCheck" (Some two_results) None (world (start ([] : Journal)))
     = ((Some two_results, None), ["SelfCheck"])
  /\ length (observations (RunChecks one_remote [])) = 3%nat.
Proof.
  assert (checkers one_remote = [] ++ query_control_plane :: []) as H1
    by reflexivity.
  assert (loop [] (start ([] : Journal)) = (Next, start [])) as H2
    by reflexivity.
  assert (RemoteAction query_control_plane
            (remote "SelfCheck" (Some two_results) None)) as H3
    by (split; reflexivity).
  assert (remote "SelfCheck" (Some two_results) None
            (world (start ([] : Journal)))
          = ((Some two_results, None), ["SelfCheck"])) as H4
    by reflexivity.
  repeat (split; [assumption|]).
  exact (proj2 (proj2 (proj2
           (RunChecks_remote_success_observations
              one_remote [] query_control_plane [] [] (start [])
              (remote "SelfCheck" (Some two_results) None) two_results
              ["SelfCheck"] H1 H2 H3 H4)))
         eq_refl eq_refl eq_refl).
Defined.

Lemma RunChecks_fatal_error_halts_witness :
  RunChecks version_unreachable []
  = (Returns false,
     [ {| obs_category := "linkerd-version";
          obs_description := "can get the latest version";
          obs_err := Some (errorString "no route to host") |} ],
     ["GetLatestVersion"]).
Proof.
  refine (RunChecks_fatal_error_halts
            version_unreachable []
            (hd query_control_plane (checkers version_unreachable))
            (tl (checkers version_unreachable))
            [] (start []) (errorString "no route to host")
            ["GetLatestVersion"] _ _ _ _).
  - reflexivity.
  - reflexivity.
  - reflexivity.
  - left. eexists. split; reflexivity.
Defined.

Lemma RunChecks_remote_error_continues_witness :
  observations (RunChecks optional_then_local [])
  = [ {| obs_category := "linkerd-api";
         obs_description := "can query the control plane API";
         obs_err := Some (errorString "deadline exceeded") |};
      {| obs_category := "linkerd-version";
         obs_description := "cli is up-to-date";
         obs_err := None |} ]
  /\ returned (RunChecks optional_then_local []) <> Returns true.
Proof.
  refine (proj2
            (RunChecks_remote_error_continues
               optional_then_local [] optional_remote
               (tl (checkers optional_then_local)) [] (start [])
               (remote "SelfCheck" (Some two_results)
                  (Some (errorString "deadline exceeded")))
               (Some two_results) (errorString "deadline exceeded")
               ["SelfCheck"] _ _ _ _ _)).
  - reflexivity.
  - reflexivity.
  - split; reflexivity.
  - reflexivity.
  - reflexivity.
Defined.

Lemma RunChecks_fatal_remote_result_failure_continues_witness :
  observations (RunChecks api_then_version [])
  = [ {| obs_category := "linkerd-api";
         obs_description := "can initialize the client";
         obs_err := None |};
      {| obs_category := "linkerd-api";
         obs_description := "can query the control plane API";
         obs_err := None |};
      {| obs_category := "linkerd-api[kubernetes]";
         obs_description := "control plane can talk to Kubernetes";
         obs_err := None |};
      {| obs_category := "linkerd-api[prometheus]";
         obs_description := "control plane can talk to Prometheus";
         obs_err := Some (fmt_Errorf "disk full") |};
      {| obs_category := "linkerd-version";
         obs_description := "can get the latest version";
         obs_err := None |};
      {| obs_category := "linkerd-version";
         obs_description := "cli is up-to-date";
         obs_err := Some (errorString "is running version 1") |};
      {| obs_category := "linkerd-version";
         obs_description := "control plane is up-to-date";
         obs_err := None |} ]
  /\ returned (RunChecks api_then_version []) <> Returns true.
Proof.
  refine (proj2
            (RunChecks_fatal_remote_result_failure_continues
               api_then_version
               (firstn 1 (checkers api_then_version))
               (nth 1 (checkers api_then_version) query_control_plane)
               (skipn 2 (checkers api_then_version))
               []
               {| success := true;
                  observed := [ {| obs_category := "linkerd-api";
                                   obs_description :=
                                     "can initialize the client";
                                   obs_err := None |} ];
                  world := ["NewExternalClient"] |}
               (remote "SelfCheck" (Some two_results) None) two_results
               ["NewExternalClient"; "SelfCheck"] prometheus_failed
               _ _ _ _ _ _ _)).
  - reflexivity.
  - reflexivity.
  - split; reflexivity.
  - reflexivity.
  - reflexivity.
  - right; left; reflexivity.
  - discriminate.
Defined.

(** C7 as the design document states it fails on the run of the control
    plane checks followed by the version checks: the observer is called
    seven times for six leaf outcomes, and the call for the self-check
    itself, which succeeded, is the call of no leaf outcome. *)
Lemma RunChecks_leaf_outcomes_counterexample :
  length (observations (RunChecks api_then_version [])) = 7%nat
  /\ length api_then_version_leaf_outcomes = 6%nat
  /\ observations (RunChecks api_then_version [])
     <> api_then_version_leaf_outcomes
  /\ In {| obs_category := "linkerd-api";
           obs_description := "can query the control plane API";
           obs_err := None |}
        (observations (RunChecks api_then_version []))
  /\ ~ In {| obs_category := "linkerd-api";
             obs_description := "can query the control plane API";
             obs_err := None |}
          api_then_version_leaf_outcomes.
Proof.
  split; [reflexivity|]. split; [reflexivity|]. split; [discriminate|].
  split; [right; left; reflexivity|].
  unfold api_then_version_leaf_outcomes. simpl.
  intros [H|[H|[H|[H|[H|[H|[]]]]]]]; discriminate.
Qed.

Lemma RunChecks_observes_each_outcome_once_witness :
  observations (RunChecks api_then_version [])
  = observations (RunChecks
                    {| checkers := firstn 3 (checkers api_then_version) |} [])
    ++ [ {| obs_category := "linkerd-version";
            obs_description := "cli is up-to-date";
            obs_err := Some (errorString "is running version 1") |};
         {| obs_category := "linkerd-version";
            obs_description := "control plane is up-to-date";
            obs_err := None |} ].
Proof.
  refine (proj1 (proj2
            (RunChecks_observes_each_outcome_once
               api_then_version
               (firstn 3 (checkers api_then_version))
               (nth 3 (checkers api_then_version) query_control_plane)
               (skipn 4 (checkers api_then_version))
               []
               (snd (loop (firstn 3 (checkers api_then_version))
                       (start [])))
               _ _))
            (local "CheckClientVersion"
               (Some (errorString "is running version 1")))
            (Some (errorString "is running version 1"))
            ["NewExternalClient"; "SelfCheck"; "GetLatestVersion";
             "CheckClientVersion"]
            _ _).
  - reflexivity.
  - reflexivity.
  - split; reflexivity.
  - reflexivity.
Defined.

Lemma RunChecks_true_iff_no_error_witness :
  responses_present api_then_version
  /\ returned (RunChecks api_then_version []) = Returns false
  /\ ~ Forall (fun o => obs_err o = None)
         (observations (RunChecks api_then_version [])).
Proof.
  assert (responses_present api_then_version) as Hp.
  { intros c rpc w Hin Hrpc. simpl in Hin.
    destruct Hin as [<-|[<-|[<-|[<-|[<-|[]]]]]]; try discriminate.
    injection Hrpc as <-. discriminate. }
  assert (returned (RunChecks api_then_version []) = Returns false) as Hr
    by reflexivity.
  split; [exact Hp|]. split; [exact Hr|].
  intros Hall.
  apply (proj1 (RunChecks_true_iff_no_error api_then_version [])
           false Hr) in Hall.
  discriminate.
Defined.

End HealthcheckProofs.

(** ** Properties of the Kubernetes API probes *)

Module K8sProofs.

Import K8s K8sSpec.

Local Open Scope Z_scope.

(** *** The comparator *)

Lemma isCompatible_lex_compare actual required :
  isCompatible actual required = true <-> lex_ge actual required.
Proof.
  unfold isCompatible, lex_ge, lex_compare.
  destruct actual as [a0 a1 a2], required as [r0 r1 r2]; simpl.
  rewrite !orb_true_iff, !andb_true_iff.
  rewrite !Z.gtb_lt, !Z.eqb_eq, Z.geb_le.
  destruct (Z.compare_spec a0 r0) as [H0|H0|H0];
    destruct (Z.compare_spec a1 r1) as [H1|H1|H1];
    destruct (Z.compare_spec a2 r2) as [H2|H2|H2];
    split; intros H; try discriminate; try congruence; try lia.
Qed.

(** *** The parser *)

Lemma skip_tag_split s :
  exists tag,
    s = tag +++ skip_tag s /\ no_digits tag = true
    /\ (skip_tag s = EmptyString \/ starts_with_digit (skip_tag s) = true).
Proof.
  induction s as [|c s IH]; simpl.
  - exists EmptyString. auto.
  - destruct (is_digit c) eqn:Hc.
    + exists EmptyString. simpl. rewrite Hc. auto.
    + destruct IH as (tag & Hs & Htag & Hrest).
      exists (String c tag). simpl. rewrite Hc, Htag, <- Hs. auto.
Qed.

Lemma skip_tag_append tag s :
  no_digits tag = true -> starts_with_digit s = true ->
  skip_tag (tag +++ s) = s.
Proof.
  intros Htag Hs. induction tag as [|c tag IH]; simpl in *.
  - destruct s as [|c s]; simpl in *; [discriminate|]. now rewrite Hs.
  - apply andb_true_iff in Htag as [Hc Htag].
    apply negb_true_iff in Hc. rewrite Hc. auto.
Qed.

Lemma span_digits_split s d rest :
  span_digits s = (d, rest) ->
  s = d +++ rest /\ all_digits d = true /\ starts_with_digit rest = false.
Proof.
  revert d rest. induction s as [|c s IH]; simpl; intros d rest H.
  - injection H as <- <-. auto.
  - destruct (is_digit c) eqn:Hc.
    + destruct (span_digits s) as [d' rest'].
      injection H as <- <-.
      destruct (IH d' rest' eq_refl) as (Hs & Hd & Hr).
      simpl. rewrite Hc, Hd, <- Hs. auto.
    + injection H as <- <-. simpl. rewrite Hc. auto.
Qed.

Lemma span_digits_append d rest :
  all_digits d = true -> starts_with_digit rest = false ->
  span_digits (d +++ rest) = (d, rest).
Proof.
  intros Hd Hr. induction d as [|c d IH]; simpl in *.
  - destruct rest as [|c rest]; simpl in *; [reflexivity|]. now rewrite Hr.
  - apply andb_true_iff in Hd as [Hc Hd]. rewrite Hc, (IH Hd). reflexivity.
Qed.

Lemma component_split s n rest :
  component s = Some (n, rest) ->
  exists d, s = d +++ rest /\ numeric d /\ n = decimal 0 d
            /\ starts_with_digit rest = false.
Proof.
  unfold component. destruct (span_digits s) as [d rest'] eqn:Hspan.
  apply span_digits_split in Hspan as (Hs & Hd & Hr).
  destruct d as [|c d]; [discriminate|].
  intros H. injection H as <- <-.
  exists (String c d). repeat split; auto. discriminate.
Qed.

Lemma component_append d rest :
  numeric d -> starts_with_digit rest = false ->
  component (d +++ rest) = Some (decimal 0 d, rest).
Proof.
  intros [Hne Hd] Hr. unfold component.
  rewrite (span_digits_append d rest Hd Hr).
  destruct d; [now contradiction Hne | reflexivity].
Qed.

Lemma dot_split s s' : dot s = Some s' -> s = "." +++ s'.
Proof.
  destruct s as [|c s]; simpl; [discriminate|].
  destruct c as [[] [] [] [] [] [] [] []]; try discriminate.
  intros H. injection H as <-. reflexivity.
Qed.

Lemma numeric_starts d s : numeric d -> starts_with_digit (d +++ s) = true.
Proof.
  intros [Hne Hd]. destruct d as [|c d]; [now contradiction Hne|].
  simpl in *. now apply andb_true_iff in Hd as [Hc _].
Qed.

Lemma getK8sVersion_carries raw v :
  getK8sVersion raw = inl v <->
  exists tag d1 d2 d3 rest,
    carries raw tag d1 d2 d3 rest
    /\ v = {| major := decimal 0 d1;
              minor := decimal 0 d2;
              patch := decimal 0 d3 |}.
Proof.
  split.
  - unfold getK8sVersion.
    destruct (skip_tag_split raw) as (tag & Hraw & Htag & _).
    destruct (component (skip_tag raw)) as [[a s1]|] eqn:H1; [|discriminate].
    destruct (dot s1) as [s1'|] eqn:Hd1; [|discriminate].
    destruct (component s1') as [[b s2]|] eqn:H2; [|discriminate].
    destruct (dot s2) as [s2'|] eqn:Hd2; [|discriminate].
    destruct (component s2') as [[c s3]|] eqn:H3; [|discriminate].
    intros H. injection H as <-.
    apply component_split in H1 as (d1 & E1 & N1 & -> & _).
    apply component_split in H2 as (d2 & E2 & N2 & -> & _).
    apply component_split in H3 as (d3 & E3 & N3 & -> & R3).
    apply dot_split in Hd1, Hd2.
    exists tag, d1, d2, d3, s3. split; [|reflexivity].
    repeat split; try apply N1; try apply N2; try apply N3; auto.
    rewrite Hraw at 1. rewrite E1, Hd1, E2, Hd2, E3. reflexivity.
  - intros (tag & d1 & d2 & d3 & rest & Hc & ->).
    destruct Hc as (-> & Htag & N1 & N2 & N3 & Hr).
    unfold getK8sVersion.
    rewrite (skip_tag_append tag _ Htag (numeric_starts d1 _ N1)).
    rewrite (component_append d1 ("." +++ d2 +++ "." +++ d3 +++ rest)
               N1 eq_refl).
    cbn [append dot].
    rewrite (component_append d2 (String "." (d3 +++ rest)) N2 eq_refl).
    cbn [dot].
    rewrite (component_append d3 _ N3 Hr). reflexivity.
Qed.

Lemma getK8sVersion_error raw e :
  getK8sVersion raw = inr e -> e = VersionParseError raw.
Proof.
  unfold getK8sVersion.
  destruct (component (skip_tag raw)) as [[a s1]|]; [|congruence].
  destruct (dot s1) as [s1'|]; [|congruence].
  destruct (component s1') as [[b s2]|]; [|congruence].
  destruct (dot s2) as [s2'|]; [|congruence].
  destruct (component s2') as [[c s3]|]; congruence.
Qed.

(** *** The claims *)

(** C4: [isCompatible actual required] holds exactly when [actual] is
    greater than or equal to [required] in the lexicographic order on
    (major, minor, patch); 1.9.0, 2.0.0 and 1.8.0 are compatible with 1.8.0
    and 1.7.9 is not; and [CheckVersion] accepts a version that parses
    exactly when it is at least [minApiVersion] in that order. *)
Theorem isCompatible_lexicographic :
  (forall actual required,
     isCompatible actual required = true <-> lex_ge actual required)
  /\ isCompatible {| major := 1; minor := 9; patch := 0 |}
                  {| major := 1; minor := 8; patch := 0 |} = true
  /\ isCompatible {| major := 2; minor := 0; patch := 0 |}
                  {| major := 1; minor := 8; patch := 0 |} = true
  /\ isCompatible {| major := 1; minor := 8; patch := 0 |}
                  {| major := 1; minor := 8; patch := 0 |} = true
  /\ isCompatible {| major := 1; minor := 7; patch := 9 |}
                  {| major := 1; minor := 8; patch := 0 |} = false
  /\ (forall versionInfo apiVersion,
        getK8sVersion (Info_String versionInfo) = inl apiVersion ->
        (CheckVersion versionInfo = None <-> lex_ge apiVersion minApiVersion)).
Proof.
  split; [exact isCompatible_lex_compare|].
  repeat (split; [reflexivity|]).
  intros versionInfo apiVersion Hparse.
  rewrite <- isCompatible_lex_compare.
  unfold CheckVersion, isCompatibleVersion. rewrite Hparse.
  destruct (isCompatible apiVersion minApiVersion); simpl;
    split; intros H; congruence.
Qed.

Lemma isCompatible_lexicographic_witness :
  getK8sVersion (Info_String {| GitVersion := "v1.9.3-gke.2" |})
  = inl {| major := 1; minor := 9; patch := 3 |}
  /\ (CheckVersion {| GitVersion := "v1.9.3-gke.2" |} = None
      <-> lex_ge {| major := 1; minor := 9; patch := 3 |} minApiVersion).
Proof.
  split; [reflexivity|].
  apply (proj2 (proj2 (proj2 (proj2 (proj2 isCompatible_lexicographic))))
           {| GitVersion := "v1.9.3-gke.2" |}
           {| major := 1; minor := 9; patch := 3 |}).
  reflexivity.
Defined.

(** C8: the parser succeeds exactly on the strings made of a tag without
    digits, three purely numeric components separated by dots, and a rest,
    which is discarded; it then yields the three numbers.  On every other
    string it fails with the parse error that names the string.
    ["v1.9.3-gke.2"] parses to (1, 9, 3) and ["abc"] is a parse error. *)
Theorem getK8sVersion_policy (raw : string) :
  (forall v,
     getK8sVersion raw = inl v <->
     exists tag d1 d2 d3 rest,
       carries raw tag d1 d2 d3 rest
       /\ v = {| major := decimal 0 d1;
                 minor := decimal 0 d2;
                 patch := decimal 0 d3 |})
  /\ (~ (exists tag d1 d2 d3 rest, carries raw tag d1 d2 d3 rest) ->
      getK8sVersion raw = inr (VersionParseError raw))
  /\ (forall e, getK8sVersion raw = inr e -> e = VersionParseError raw)
  /\ getK8sVersion "v1.9.3-gke.2"
     = inl {| major := 1; minor := 9; patch := 3 |}
  /\ getK8sVersion "abc" = inr (VersionParseError "abc").
Proof.
  split; [intros v; apply getK8sVersion_carries|].
  split; [|split; [apply getK8sVersion_error | split; reflexivity]].
  intros Hnone. destruct (getK8sVersion raw) as [v|e] eqn:Hp.
  - apply getK8sVersion_carries in Hp
      as (tag & d1 & d2 & d3 & rest & Hc & _).
    contradiction Hnone. eauto 6.
  - now rewrite (getK8sVersion_error raw e Hp).
Qed.

Lemma getK8sVersion_policy_witness :
  carries "v1.9.3-gke.2" "v" "1" "9" "3" "-gke.2"
  /\ getK8sVersion "v1.9.3-gke.2"
     = inl {| major := decimal 0 "1";
              minor := decimal 0 "9";
              patch := decimal 0 "3" |}.
Proof.
  assert (carries "v1.9.3-gke.2" "v" "1" "9" "3" "-gke.2") as Hc.
  { unfold carries, numeric. repeat split; try reflexivity; discriminate. }
  split; [exact Hc|].
  apply (proj1 (getK8sVersion_policy "v1.9.3-gke.2")).
  exists "v"%string, "1"%string, "9"%string, "3"%string, "-gke.2"%string.
  split; [exact Hc | reflexivity].
Defined.

Section HttpProofs.

Variable Request : Type.
Variable url_Parse : string -> string + error.
Variable http_NewRequest : string -> string -> Request + error.

Abbreviation CheckNamespaceExists :=
  (CheckNamespaceExists Request url_Parse http_NewRequest).
Abbreviation responds := (responds Request url_Parse http_NewRequest).

(** C9: [CheckNamespaceExists] returns nil exactly when the API answers
    the namespace request with status 200; on an answer with status 404 it
    returns the error that says that the namespace does not exist and names
    it; on an answer with any other status it returns the error that carries
    the status text; and the two errors are never the same. *)
Theorem CheckNamespaceExists_by_status
    (kubeapi : kubernetesApi) (client : Client Request) (namespace : string) :
  (CheckNamespaceExists kubeapi client namespace = None <->
   exists rsp, responds kubeapi client namespace rsp
               /\ StatusCode rsp = 200)
  /\ (forall rsp,
        responds kubeapi client namespace rsp ->
        StatusCode rsp = 404 ->
        CheckNamespaceExists kubeapi client namespace
        = Some (errorString ("The " +++ dquote +++ namespace +++ dquote
                             +++ " namespace does not exist")))
  /\ (forall rsp,
        responds kubeapi client namespace rsp ->
        StatusCode rsp <> 200 -> StatusCode rsp <> 404 ->
        CheckNamespaceExists kubeapi client namespace
        = Some (errorString ("Unexpected Kubernetes API response: "
                             +++ Status rsp)))
  /\ (forall status,
        errorString ("The " +++ dquote +++ namespace +++ dquote
                     +++ " namespace does not exist")
        <> errorString ("Unexpected Kubernetes API response: " +++ status)).
Proof.
  unfold K8s.CheckNamespaceExists, K8sSpec.responds, StatusNotFound, StatusOK.
  repeat split.
  - destruct (url_Parse _) as [endpoint|e] eqn:Hu; [|discriminate].
    destruct (http_NewRequest _ endpoint) as [req|e] eqn:Hn; [|discriminate].
    destruct (client req) as [rsp|e] eqn:Hd; [|discriminate].
    destruct (Z.eqb_spec (StatusCode rsp) 404); [discriminate|].
    destruct (Z.eqb_spec (StatusCode rsp) 200); [|discriminate].
    intros _. exists rsp. split; [|assumption].
    exists endpoint, req. auto.
  - intros (rsp & (endpoint & req & -> & -> & ->) & Hst).
    rewrite Hst. reflexivity.
  - intros rsp (endpoint & req & -> & -> & ->) Hst.
    rewrite Hst. reflexivity.
  - intros rsp (endpoint & req & -> & -> & ->) H200 H404.
    destruct (Z.eqb_spec (StatusCode rsp) 404); [contradiction|].
    destruct (Z.eqb_spec (StatusCode rsp) 200); [contradiction|].
    reflexivity.
  - discriminate.
Qed.

End HttpProofs.

Lemma CheckNamespaceExists_by_status_witness :
  responds string inl (fun method url => inl (method +++ " " +++ url))
    local_cluster not_found "linkerd"
    {| StatusCode := 404; Status := "404 Not Found" |}
  /\ CheckNamespaceExists string inl
       (fun method url => inl (method +++ " " +++ url))
       local_cluster not_found "linkerd"
     = Some (errorString ("The " +++ dquote +++ "linkerd" +++ dquote
                          +++ " namespace does not exist")).
Proof.
  assert (responds string inl (fun method url => inl (method +++ " " +++ url))
            local_cluster not_found "linkerd"
            {| StatusCode := 404; Status := "404 Not Found" |}) as Hr.
  { do 2 eexists. repeat split. }
  split; [exact Hr|].
  exact (proj1 (proj2 (CheckNamespaceExists_by_status
                         string inl
                         (fun method url => inl (method +++ " " +++ url))
                         local_cluster not_found "linkerd"))
           _ Hr eq_refl).
Defined.

End K8sProofs.


(** ** Further properties of the check runner *)

Module HealthcheckExtra.

Import Healthcheck HealthcheckSpec HealthcheckCases HealthcheckProofs.

Local Open Scope string_scope.
Local Open Scope list_scope.

Section Runner.

Context {W : Type}.

Implicit Types (c : checker W) (cs : list (checker W)) (r : run W).

(** *** Leaving the loop early *)

Lemma run_check_break c r r' :
  run_check c r = (Break, r') ->
  fatal c = true /\ success r' = false
  /\ exists e, observed r' = observed r ++ [top_observation c (Some e)].
Proof.
  unfold run_check. destruct (check c) as [action|]; [|discriminate].
  destruct (action (world r)) as [[e|] w1]; [|discriminate].
  destruct (fatal c); [|discriminate].
  intros H. injection H as <-. simpl. repeat split. now exists e.
Qed.

Lemma run_checkRpc_break c r r' :
  run_checkRpc c r = (Break, r') ->
  fatal c = true /\ success r' = false
  /\ exists e, observed r' = observed r ++ [top_observation c (Some e)].
Proof.
  unfold run_checkRpc. destruct (checkRpc c) as [rpc|]; [|discriminate].
  destruct (rpc (world r)) as [[rsp [e|]] w1].
  - destruct (fatal c); [|discriminate].
    intros H. injection H as <-. simpl. repeat split. now exists e.
  - destruct rsp; discriminate.
Qed.

Lemma iteration_break c r r' :
  iteration c r = (Break, r') ->
  fatal c = true /\ success r' = false
  /\ exists e log, observed r' = log ++ [top_observation c (Some e)].
Proof.
  unfold iteration. destruct (run_check c r) as [[] r1] eqn:H1.
  - intros H2. apply run_checkRpc_break in H2 as (Hf & Hs & e & Ho). eauto.
  - intros H. injection H as <-.
    apply run_check_break in H1 as (Hf & Hs & e & Ho). eauto.
  - discriminate.
Qed.

Lemma loop_break cs : forall r r',
  loop cs r = (Break, r') ->
  success r' = false
  /\ exists c e log,
       In c cs /\ fatal c = true
       /\ observed r' = log ++ [top_observation c (Some e)].
Proof.
  induction cs as [|c cs IH]; intros r r'; simpl; [discriminate|].
  destruct (iteration c r) as [[] r1] eqn:Hit.
  - intros H. apply IH in H as (Hs & c' & e & log & Hin & Hf & Ho).
    split; [exact Hs|]. exists c', e, log. auto.
  - intros H. injection H as <-.
    apply iteration_break in Hit as (Hf & Hs & e & log & Ho).
    split; [exact Hs|]. exists c, e, log. auto.
  - discriminate.
Qed.

(** X2: when the loop of [RunChecks] is left by [break], [success] is
    [false] and the last call made to the observer carries an error and the
    category and description of a registered checker that is fatal. *)
Theorem loop_break_last_observation (hc : HealthChecker W) (w : W) r :
  loop (checkers hc) (start w) = (Break, r) ->
  RunChecks hc w = (Returns false, observed r, world r)
  /\ exists c e log,
       In c (checkers hc) /\ fatal c = true
       /\ observed r
          = log ++ [ {| obs_category := category c;
                        obs_description := description c;
                        obs_err := Some e |} ].
Proof.
  intros H. unfold RunChecks. rewrite H. simpl.
  apply loop_break in H as (Hs & Hex). rewrite Hs. auto.
Qed.

Lemma iteration_not_fatal c r :
  fatal c = false -> fst (iteration c r) <> Break.
Proof.
  intros Hf Hb. destruct (iteration c r) as [s r'] eqn:Hit.
  simpl in Hb. subst s.
  apply iteration_break in Hit as (Hf' & _). congruence.
Qed.

(** X3: a registry in which no checker is fatal is never left by [break]:
    whatever the actions return, the loop goes through every checker, unless
    a nil response makes it panic. *)
Theorem loop_without_fatal_never_breaks (hc : HealthChecker W) (w : W) :
  (forall c, In c (checkers hc) -> fatal c = false) ->
  fst (loop (checkers hc) (start w)) <> Break
  /\ (responses_present hc -> fst (loop (checkers hc) (start w)) = Next).
Proof.
  intros Hall.
  assert (fst (loop (checkers hc) (start w)) <> Break) as Hnb.
  { intros Hb.
    destruct (loop (checkers hc) (start w)) as [s r] eqn:Hl.
    simpl in Hb. subst s.
    apply loop_break in Hl as (_ & c & e & log & Hin & Hf & _).
    rewrite (Hall c Hin) in Hf. discriminate. }
  split; [exact Hnb|].
  intros Hp. pose proof (loop_no_panic (checkers hc) (start w) Hp) as Hnp.
  destruct (fst (loop (checkers hc) (start w))); congruence.
Qed.

(** *** Registering more checks *)

Lemma loop_extension cs more r :
  exists rest,
    observed (snd (loop (cs ++ more) r)) = observed (snd (loop cs r)) ++ rest.
Proof.
  rewrite loop_app. destruct (loop cs r) as [[] r1]; simpl.
  - rewrite (loop_from more r1); simpl. eauto.
  - exists []. now rewrite app_nil_r.
  - exists []. now rewrite app_nil_r.
Qed.

Lemma extends_run_app (hc : HealthChecker W) more :
  extends_run hc {| checkers := checkers hc ++ more |}.
Proof.
  intros w. unfold RunChecks; simpl. rewrite !observations_finish.
  apply loop_extension.
Qed.

(** X1: registering further checks does not change what the observer is
    told about the checks registered before: for [register] and for each of
    the three [Add...Checks] methods, the calls of a run of the old registry
    are a prefix of the calls of a run of the new one from the same
    world. *)
Theorem registration_extends_run (hc : HealthChecker W) :
  (forall c, extends_run hc (register hc c))
  /\ (forall initClient queryApi checkVersion checkNamespace,
        extends_run hc
          (AddKubernetesAPIChecks initClient queryApi checkVersion
             checkNamespace hc))
  /\ (forall initClient selfCheck,
        extends_run hc (AddLinkerdAPIChecks initClient selfCheck hc))
  /\ (forall getLatest checkClient checkServer,
        extends_run hc
          (AddLinkerdVersionChecks getLatest checkClient checkServer hc)).
Proof.
  repeat split; intros.
  - apply extends_run_app.
  - unfold AddKubernetesAPIChecks, register; simpl.
    rewrite <- !app_assoc. apply extends_run_app.
  - unfold AddLinkerdAPIChecks, register; simpl.
    rewrite <- !app_assoc. apply extends_run_app.
  - unfold AddLinkerdVersionChecks, register; simpl.
    rewrite <- !app_assoc. apply extends_run_app.
Qed.

(** *** Checkers without action, or with both *)

(** X5: a checker that has neither a local nor a remote action is passed
    over: no call of the observer, no change of [success], and the run is
    the run of the registry without it. *)
Theorem RunChecks_skips_checker_without_action pre c post (w : W) :
  check c = None -> checkRpc c = None ->
  RunChecks {| checkers := pre ++ c :: post |} w
  = RunChecks {| checkers := pre ++ post |} w.
Proof.
  intros Hc Hr. unfold RunChecks; simpl. rewrite !loop_app.
  destruct (loop pre (start w)) as [[] r1]; try reflexivity.
  simpl. unfold iteration, run_check, run_checkRpc. rewrite Hc, Hr.
  reflexivity.
Qed.

(** X10: a checker that has both actions runs both in one iteration, the
    local one first and the remote one in the world the local one left,
    also after an error of the local action when the checker is not fatal;
    the observer is then called twice with the category and description of
    the checker, before the calls for the results. *)
Theorem iteration_with_both_actions c r action rpc e w1 rsp w2 :
  check c = Some action -> checkRpc c = Some rpc ->
  action (world r) = (e, w1) ->
  e = None \/ fatal c = false ->
  rpc w1 = ((Some rsp, None), w2) ->
  iteration c r
  = (Next,
     {| success := success r && is_nil e && forallb result_ok (Results rsp);
        observed :=
          observed r
          ++ {| obs_category := category c;
                obs_description := description c;
                obs_err := e |}
             :: {| obs_category := category c;
                   obs_description := description c;
                   obs_err := None |}
                :: map (result_observation c) (Results rsp);
        world := w2 |}).
Proof.
  intros Hc Hr Ha He Hrpc. unfold iteration, run_check, run_checkRpc.
  rewrite Hc, Ha.
  destruct e as [e|]; [destruct He as [He|He]; [discriminate|rewrite He]|];
    simpl; rewrite Hr, Hrpc, fold_observe_result; simpl;
    rewrite <- !app_assoc; simpl;
    rewrite ?andb_true_r, ?andb_false_r; reflexivity.
Qed.

(** *** A nil response *)

(** X6: when the RPC call of a remote check returns a nil response together
    with a nil error, the observer has been called for the call itself, with
    a nil error, and the run then panics on the nil response: nothing is
    returned and no later check is run. *)
Theorem RunChecks_nil_response_panics
    (hc : HealthChecker W) pre c post (w : W) r1 rpc w2 :
  checkers hc = pre ++ c :: post ->
  loop pre (start w) = (Next, r1) ->
  RemoteAction c rpc ->
  rpc (world r1) = ((None, None), w2) ->
  RunChecks hc w
  = (Panics,
     observed r1 ++ [ {| obs_category := category c;
                         obs_description := description c;
                         obs_err := None |} ],
     w2).
Proof.
  intros Hcs Hpre [Hc Hr] Hrpc. unfold RunChecks.
  rewrite Hcs, (loop_cons_after _ _ _ _ _ Hpre).
  unfold iteration, run_check, run_checkRpc. rewrite Hc, Hr, Hrpc.
  reflexivity.
Qed.

(** *** The [fatal] flag only matters on an error *)

Lemma loop_failure_sticks cs r :
  success r = false -> success (snd (loop cs r)) = false.
Proof. intros Hs. rewrite (loop_from cs r); simpl. now rewrite Hs. Qed.

Lemma iteration_same_actions c c' r s r' :
  same_actions c c' ->
  iteration c r = (s, r') -> success r' = true ->
  iteration c' r = (s, r').
Proof.
  intros (Hcat & Hdesc & Hcheck & Hrpc).
  unfold iteration, run_check, run_checkRpc.
  rewrite <- Hcat, <- Hdesc, <- Hcheck, <- Hrpc.
  assert (forall (rs : list CheckResult) (r0 : run W),
            success (fold_left (observe_result c') rs (fail r0)) = true ->
            False) as Hfold.
  { intros rs r0. rewrite fold_observe_result. simpl. discriminate. }
  assert (forall rs (r0 : run W),
            fold_left (observe_result c') rs r0
            = fold_left (observe_result c) rs r0) as Hsame.
  { intros rs r0. rewrite !fold_observe_result.
    unfold result_observation. now rewrite Hcat. }
  destruct (check c) as [action|].
  - destruct (action (world r)) as [[e|] w1].
    + destruct (fatal c), (fatal c'); simpl;
        try (intros H Hs; injection H as <- <-; discriminate).
      * destruct (checkRpc c) as [rpc|];
          [|intros H Hs; injection H as <- <-; discriminate].
        destruct (rpc w1) as [[rsp [e'|]] w2]; simpl.
        -- destruct (fatal c); intros H Hs; injection H as <- <-;
             discriminate.
        -- destruct rsp as [rsp|]; intros H Hs; injection H as <- <-;
             simpl in Hs; try discriminate.
           rewrite fold_observe_result in Hs. discriminate.
      * destruct (checkRpc c) as [rpc|];
          [|intros H Hs; injection H as <- <-; discriminate].
        destruct (rpc w1) as [[rsp [e'|]] w2]; simpl.
        -- intros H Hs; injection H as <- <-; discriminate.
        -- destruct rsp as [rsp|]; intros H Hs; injection H as <- <-;
             simpl in Hs; try discriminate.
           rewrite fold_observe_result in Hs. discriminate.
    + simpl. destruct (checkRpc c) as [rpc|]; [|auto].
      destruct (rpc w1) as [[rsp [e'|]] w2]; simpl.
      * destruct (fatal c), (fatal c'); intros H Hs; injection H as <- <-;
          discriminate.
      * destruct rsp as [rsp|]; [|auto]. rewrite Hsame. auto.
  - destruct (checkRpc c) as [rpc|]; [|auto].
    destruct (rpc (world r)) as [[rsp [e'|]] w2]; simpl.
    + destruct (fatal c), (fatal c'); intros H Hs; injection H as <- <-;
        discriminate.
    + destruct rsp as [rsp|]; [|auto]. rewrite Hsame. auto.
Qed.

Lemma loop_same_actions cs : forall cs' r s r',
  Forall2 same_actions cs cs' ->
  loop cs r = (s, r') -> success r' = true ->
  loop cs' r = (s, r').
Proof.
  induction cs as [|c cs IH]; intros cs' r s r' Hall; inversion Hall; subst.
  - auto.
  - simpl. destruct (iteration c r) as [s1 r1] eqn:Hit.
    intros Hl Hs.
    assert (success r1 = true) as Hs1.
    { destruct (success r1) eqn:E; [reflexivity|].
      destruct s1.
      - pose proof (loop_failure_sticks cs r1 E) as Hf.
        rewrite Hl in Hf. simpl in Hf. congruence.
      - injection Hl as <- <-. congruence.
      - injection Hl as <- <-. congruence. }
    rewrite (iteration_same_actions c y r s1 r1 H1 Hit Hs1).
    destruct s1; auto.
Qed.

(** X4: the [fatal] flags are only looked at when an action fails: when a
    run returns [true], the run of the registry with the same checkers in
    the same order but other [fatal] flags is the same, with the same calls
    of the observer and the same final world. *)
Theorem RunChecks_true_whatever_fatal cs cs' (w : W) :
  Forall2 same_actions cs cs' ->
  returned (RunChecks {| checkers := cs |} w) = Returns true ->
  RunChecks {| checkers := cs' |} w = RunChecks {| checkers := cs |} w.
Proof.
  intros Hall. unfold RunChecks; simpl.
  destruct (loop cs (start w)) as [s r] eqn:Hl.
  intros Hret.
  assert (success r = true) as Hs.
  { unfold returned in Hret. simpl in Hret. destruct s; congruence. }
  now rewrite (loop_same_actions cs cs' (start w) s r Hall Hl Hs).
Qed.

(** *** When nothing can fail *)

Lemma run_checkRpc_always_succeeds c r :
  always_succeeds c -> success r = true ->
  fst (run_checkRpc c r) = Next /\ success (snd (run_checkRpc c r)) = true.
Proof.
  intros [_ Hrem] Hs. unfold run_checkRpc.
  destruct (checkRpc c) as [rpc|]; [|auto].
  destruct (Hrem rpc (world r) eq_refl) as (rsp & Hr & Hok).
  destruct (rpc (world r)) as [[rsp' e'] w2]. simpl in Hr.
  injection Hr as -> ->. simpl. rewrite fold_observe_result; simpl.
  now rewrite Hs, Hok.
Qed.

Lemma iteration_always_succeeds c r :
  always_succeeds c -> success r = true ->
  fst (iteration c r) = Next /\ success (snd (iteration c r)) = true.
Proof.
  intros Hc Hs. unfold iteration, run_check.
  destruct (check c) as [action|] eqn:Hcheck;
    [|now apply run_checkRpc_always_succeeds].
  pose proof (proj1 Hc action (world r) Hcheck) as Hloc.
  destruct (action (world r)) as [e w1]. simpl in Hloc. subst e.
  now apply run_checkRpc_always_succeeds.
Qed.

Lemma loop_always_succeeds cs : forall r,
  (forall c, In c cs -> always_succeeds c) -> success r = true ->
  fst (loop cs r) = Next /\ success (snd (loop cs r)) = true.
Proof.
  induction cs as [|c cs IH]; intros r Hall Hs; simpl; [auto|].
  destruct (iteration_always_succeeds c r (Hall c (or_introl eq_refl)) Hs)
    as [Hn Hs1].
  destruct (iteration c r) as [s1 r1]. simpl in Hn, Hs1. subst s1.
  apply IH; [|exact Hs1]. intros c' Hin. apply Hall. now right.
Qed.

(** X8: when no action of any registered checker can fail (every local
    action returns a nil error, every remote action a response whose
    results are all OK), [RunChecks] goes through the whole registry,
    returns [true], and every call of the observer carries a nil error. *)
Theorem RunChecks_all_succeed (hc : HealthChecker W) (w : W) :
  (forall c, In c (checkers hc) -> always_succeeds c) ->
  fst (loop (checkers hc) (start w)) = Next
  /\ returned (RunChecks hc w) = Returns true
  /\ Forall (fun o => obs_err o = None) (observations (RunChecks hc w)).
Proof.
  intros Hall.
  destruct (loop_always_succeeds (checkers hc) (start w) Hall eq_refl)
    as [Hn Hs].
  pose proof (loop_consistent (checkers hc) (start w) eq_refl) as Hc.
  unfold consistent in Hc. rewrite Hs in Hc.
  unfold RunChecks. rewrite returned_finish, observations_finish, Hn, Hs.
  repeat split. apply Forall_forall. intros o Hin.
  symmetry in Hc. rewrite forallb_forall in Hc. specialize (Hc o Hin).
  unfold no_error in Hc. destruct (obs_err o); congruence.
Qed.

(** *** Every call of the observer belongs to a registered checker *)

Lemma run_check_attributed c r o :
  In o (observed (snd (run_check c r))) ->
  In o (observed r) \/ attributed c o.
Proof.
  unfold run_check. destruct (check c) as [action|] eqn:Hc; [|now left].
  destruct (action (world r)) as [e w1] eqn:Ha.
  assert (attributed c (top_observation c e)) as Hat.
  { left. exists action, (world r). now rewrite Ha. }
  destruct e as [e|]; simpl; rewrite in_app_iff;
    (intros [H|[<-|[]]]; [now left | now right]).
Qed.

Lemma run_checkRpc_attributed c r o :
  In o (observed (snd (run_checkRpc c r))) ->
  In o (observed r) \/ attributed c o.
Proof.
  unfold run_checkRpc. destruct (checkRpc c) as [rpc|] eqn:Hc; [|now left].
  destruct (rpc (world r)) as [[rsp e] w1] eqn:Ha.
  assert (attributed c (top_observation c e)) as Hat.
  { right. left. exists rpc, (world r). now rewrite Ha. }
  destruct e as [e|]; simpl.
  - rewrite in_app_iff. intros [H|[<-|[]]]; [now left | now right].
  - destruct rsp as [rsp|]; simpl.
    + rewrite fold_observe_result; simpl. rewrite !in_app_iff.
      intros [[H|[<-|[]]]|H]; [now left | now right |].
      apply in_map_iff in H as (res & <- & Hin).
      right. right. right. exists rpc, (world r), rsp, res.
      rewrite Ha. auto.
    + rewrite in_app_iff. intros [H|[<-|[]]]; [now left | now right].
Qed.

Lemma iteration_attributed c r o :
  In o (observed (snd (iteration c r))) ->
  In o (observed r) \/ attributed c o.
Proof.
  unfold iteration.
  pose proof (run_check_attributed c r o) as Hloc.
  destruct (run_check c r) as [[] r1]; simpl in *; auto.
  intros H. apply run_checkRpc_attributed in H as [H|H]; auto.
Qed.

Lemma loop_attributed cs : forall r o,
  In o (observed (snd (loop cs r))) ->
  In o (observed r) \/ exists c, In c cs /\ attributed c o.
Proof.
  induction cs as [|c cs IH]; intros r o; simpl; [now left|].
  pose proof (iteration_attributed c r o) as Hit.
  destruct (iteration c r) as [[] r1]; simpl in *.
  - intros H. apply IH in H as [H|(c' & Hin & Ha)].
    + apply Hit in H as [H|H]; [now left|]. right. exists c. auto.
    + right. exists c'. auto.
  - intros H. apply Hit in H as [H|H]; [now left|]. right. exists c. auto.
  - intros H. apply Hit in H as [H|H]; [now left|]. right. exists c. auto.
Qed.

(** X9: every call that [RunChecks] makes to the observer is attributed to
    a registered checker [c].  Either it carries the category and the
    description of [c] and the error that the local action of [c], or its
    RPC, returns in some world.  Or it is the call for a result [res] of a
    response that the RPC of [c] returns, with a nil error, in some world:
    it then carries the category of [c] followed by the subsystem name of
    [res] in brackets, the description of [res], and a nil error when [res]
    is OK and the error built from the message of [res] otherwise. *)
Theorem RunChecks_observations_attributed
    (hc : HealthChecker W) (w : W) (o : Observation) :
  In o (observations (RunChecks hc w)) ->
  exists c,
    In c (checkers hc)
    /\ ((obs_category o = category c
         /\ obs_description o = description c
         /\ ((exists action w0,
                check c = Some action /\ obs_err o = fst (action w0))
             \/ (exists rpc w0,
                   checkRpc c = Some rpc
                   /\ obs_err o = snd (fst (rpc w0)))))
        \/ exists rpc w0 rsp res,
             checkRpc c = Some rpc
             /\ fst (rpc w0) = (Some rsp, None)
             /\ In res (Results rsp)
             /\ obs_category o
                = category c +++ "[" +++ SubsystemName res +++ "]"
             /\ obs_description o = CheckDescription res
             /\ obs_err o
                = match Status res with
                  | CheckStatus_OK => None
                  | _ => Some (fmt_Errorf (FriendlyMessageToUser res))
                  end).
Proof.
  unfold RunChecks. rewrite observations_finish. intros H.
  apply loop_attributed in H as [[]|(c & Hin & Ha)].
  exists c. split; [exact Hin|].
  destruct Ha as [(action & w0 & Hc & ->)
                 |[(rpc & w0 & Hc & ->)
                  |(rpc & w0 & rsp & res & Hc & Hr & Hres & ->)]].
  - left. repeat split. left. exists action, w0. auto.
  - left. repeat split. right. exists rpc, w0. auto.
  - right. exists rpc, w0, rsp, res. repeat split; auto.
Qed.

End Runner.

(** *** The three groups of checks *)

(** X7: a run of the four Kubernetes API checks alone.  The client is
    initialised; if that fails, nothing else is called.  Otherwise the API
    is queried; if that fails, nothing else is called.  Otherwise the
    version check and then the namespace check are both called, the second
    also after a failure of the first, each in the world the one before
    left, and [RunChecks] returns [true] exactly when both return a nil
    error. *)
Theorem RunChecks_kubernetes_api_checks {W : Type}
    (initClient queryApi checkVersion checkNamespace : W -> option error * W)
    (w : W) :
  RunChecks
    (AddKubernetesAPIChecks initClient queryApi checkVersion checkNamespace
       NewHealthChecker) w
  = let (e1, w1) := initClient w in
    let o1 := {| obs_category := "kubernetes-api";
                 obs_description := "can initialize the client";
                 obs_err := e1 |} in
    match e1 with
    | Some _ => (Returns false, [o1], w1)
    | None =>
        let (e2, w2) := queryApi w1 in
        let o2 := {| obs_category := "kubernetes-api";
                     obs_description := "can query the Kubernetes API";
                     obs_err := e2 |} in
        match e2 with
        | Some _ => (Returns false, [o1; o2], w2)
        | None =>
            let (e3, w3) := checkVersion w2 in
            let (e4, w4) := checkNamespace w3 in
            (Returns (is_nil e3 && is_nil e4),
             [ o1; o2;
               {| obs_category := "kubernetes-api";
                  obs_description :=
                    "is running the minimum Kubernetes API version";
                  obs_err := e3 |};
               {| obs_category := "kubernetes-api";
                  obs_description := "control plane namespace exists";
                  obs_err := e4 |} ],
             w4)
        end
    end.
Proof.
  unfold RunChecks, AddKubernetesAPIChecks, register, NewHealthChecker.
  simpl. unfold iteration, run_check, run_checkRpc. simpl.
  destruct (initClient w) as [[e1|] w1]; simpl; [reflexivity|].
  destruct (queryApi w1) as [[e2|] w2]; simpl; [reflexivity|].
  destruct (checkVersion w2) as [[e3|] w3]; simpl;
    destruct (checkNamespace w3) as [[e4|] w4]; reflexivity.
Qed.

(** X11: a run of the two control plane checks alone.  The client is
    initialised; if that fails, the self-check is not called.  Otherwise
    the self-check RPC is called: on an error the run returns [false] after
    two calls of the observer; on a response, the observer is told about
    the call and then about each result, and [RunChecks] returns [true]
    exactly when every result is OK; on a nil response with a nil error the
    run panics. *)
Theorem RunChecks_linkerd_api_checks {W : Type}
    (initClient : W -> option error * W)
    (selfCheck : W -> (option SelfCheckResponse * option error) * W)
    (w : W) :
  RunChecks (AddLinkerdAPIChecks initClient selfCheck NewHealthChecker) w
  = let (e1, w1) := initClient w in
    let o1 := {| obs_category := "linkerd-api";
                 obs_description := "can initialize the client";
                 obs_err := e1 |} in
    match e1 with
    | Some _ => (Returns false, [o1], w1)
    | None =>
        let '((rsp, e2), w2) := selfCheck w1 in
        let o2 := {| obs_category := "linkerd-api";
                     obs_description := "can query the control plane API";
                     obs_err := e2 |} in
        match e2, rsp with
        | Some _, _ => (Returns false, [o1; o2], w2)
        | None, None => (Panics, [o1; o2], w2)
        | None, Some rsp =>
            (Returns (forallb result_ok (Results rsp)),
             o1 :: o2
             :: map (fun res =>
                       {| obs_category :=
                            "linkerd-api[" +++ SubsystemName res +++ "]";
                          obs_description := CheckDescription res;
                          obs_err :=
                            if result_ok res then None
                            else Some (fmt_Errorf
                                         (FriendlyMessageToUser res)) |})
                  (Results rsp),
             w2)
        end
    end.
Proof.
  unfold RunChecks, AddLinkerdAPIChecks, register, NewHealthChecker.
  simpl. unfold iteration, run_check, run_checkRpc. simpl.
  destruct (initClient w) as [[e1|] w1]; simpl; [reflexivity|].
  destruct (selfCheck w1) as [[[rsp|] [e2|]] w2]; simpl; try reflexivity.
  rewrite fold_observe_result. simpl. do 2 f_equal.
  do 2 f_equal. apply map_ext. intros res.
  unfold result_observation, result_ok. simpl.
  destruct (Status res); reflexivity.
Qed.

(** X12: a run of the three version checks alone.  The latest version is
    fetched; if that fails, nothing else is called.  Otherwise the client
    check and then the server check are both called, the second also after
    a failure of the first, and [RunChecks] returns [true] exactly when both
    return a nil error. *)
Theorem RunChecks_linkerd_version_checks {W : Type}
    (getLatest checkClient checkServer : W -> option error * W) (w : W) :
  RunChecks
    (AddLinkerdVersionChecks getLatest checkClient checkServer
       NewHealthChecker) w
  = let (e1, w1) := getLatest w in
    let o1 := {| obs_category := "linkerd-version";
                 obs_description := "can get the latest version";
                 obs_err := e1 |} in
    match e1 with
    | Some _ => (Returns false, [o1], w1)
    | None =>
        let (e2, w2) := checkClient w1 in
        let (e3, w3) := checkServer w2 in
        (Returns (is_nil e2 && is_nil e3),
         [ o1;
           {| obs_category := "linkerd-version";
              obs_description := "cli is up-to-date";
              obs_err := e2 |};
           {| obs_category := "linkerd-version";
              obs_description := "control plane is up-to-date";
              obs_err := e3 |} ],
         w3)
    end.
Proof.
  unfold RunChecks, AddLinkerdVersionChecks, register, NewHealthChecker.
  simpl. unfold iteration, run_check, run_checkRpc. simpl.
  destruct (getLatest w) as [[e1|] w1]; simpl; [reflexivity|].
  destruct (checkClient w1) as [[e2|] w2]; simpl;
    destruct (checkServer w2) as [[e3|] w3]; reflexivity.
Qed.

(** *** The properties with a hypothesis, on runs on a journal *)

Lemma loop_break_last_observation_witness :
  loop (checkers version_unreachable) (start ([] : Journal))
  = (Break,
     {| success := false;
        observed := [ {| obs_category := "linkerd-version";
                         obs_description := "can get the latest version";
                         obs_err := Some (errorString "no route to host") |} ];
        world := ["GetLatestVersion"] |})
  /\ RunChecks version_unreachable []
     = (Returns false,
        [ {| obs_category := "linkerd-version";
             obs_description := "can get the latest version";
             obs_err := Some (errorString "no route to host") |} ],
        ["GetLatestVersion"]).
Proof.
  assert (loop (checkers version_unreachable) (start ([] : Journal))
          = (Break,
             {| success := false;
                observed :=
                  [ {| obs_category := "linkerd-version";
                       obs_description := "can get the latest version";
                       obs_err := Some (errorString "no route to host") |} ];
                world := ["GetLatestVersion"] |})) as H by reflexivity.
  split; [exact H|].
  exact (proj1 (loop_break_last_observation version_unreachable [] _ H)).
Defined.

Lemma loop_without_fatal_never_breaks_witness :
  (forall c, In c (checkers optional_then_local) -> fatal c = false)
  /\ fst (loop (checkers optional_then_local) (start ([] : Journal)))
     <> Break.
Proof.
  assert (forall c, In c (checkers optional_then_local) -> fatal c = false)
    as H.
  { intros c [<-|[<-|[]]]; reflexivity. }
  split; [exact H|].
  exact (proj1 (loop_without_fatal_never_breaks optional_then_local [] H)).
Defined.

Lemma RunChecks_skips_checker_without_action_witness :
  RunChecks {| checkers := checkers one_remote ++ no_action
                           :: checkers version_unreachable |} []
  = RunChecks {| checkers := checkers one_remote
                             ++ checkers version_unreachable |} [].
Proof.
  apply (RunChecks_skips_checker_without_action
           (checkers one_remote) no_action (checkers version_unreachable) []);
    reflexivity.
Defined.

Lemma iteration_with_both_actions_witness :
  iteration both_actions (start [])
  = (Next,
     {| success := false;
        observed :=
          [ {| obs_category := "linkerd-api";
               obs_description := "can query the control plane API";
               obs_err := Some (errorString "no kubeconfig") |};
            {| obs_category := "linkerd-api";
               obs_description := "can query the control plane API";
               obs_err := None |};
            {| obs_category := "linkerd-api[kubernetes]";
               obs_description := "control plane can talk to Kubernetes";
               obs_err := None |};
            {| obs_category := "linkerd-api[prometheus]";
               obs_description := "control plane can talk to Prometheus";
               obs_err := Some (fmt_Errorf "disk full") |} ];
        world := ["NewExternalClient"; "SelfCheck"] |}).
Proof.
  refine (iteration_with_both_actions
            both_actions (start [])
            (local "NewExternalClient" (Some (errorString "no kubeconfig")))
            (remote "SelfCheck" (Some two_results) None)
            (Some (errorString "no kubeconfig")) ["NewExternalClient"]
            two_results ["NewExternalClient"; "SelfCheck"] _ _ _ _ _).
  - reflexivity.
  - reflexivity.
  - reflexivity.
  - right. reflexivity.
  - reflexivity.
Defined.

Lemma RunChecks_nil_response_panics_witness :
  RunChecks {| checkers := silent_remote :: checkers version_unreachable |} []
  = (Panics,
     [ {| obs_category := "linkerd-api";
          obs_description := "can query the control plane API";
          obs_err := None |} ],
     ["SelfCheck"]).
Proof.
  refine (RunChecks_nil_response_panics
            {| checkers := silent_remote :: checkers version_unreachable |}
            [] silent_remote (checkers version_unreachable) [] (start [])
            (remote "SelfCheck" None None) ["SelfCheck"] _ _ _ _).
  - reflexivity.
  - reflexivity.
  - split; reflexivity.
  - reflexivity.
Defined.

Lemma RunChecks_true_whatever_fatal_witness :
  RunChecks {| checkers :=
                 map (fun c => {| category := category c;
                                  description := description c;
                                  fatal := negb (fatal c);
                                  check := check c;
                                  checkRpc := checkRpc c |})
                     (checkers healthy_control_plane) |} []
  = RunChecks {| checkers := checkers healthy_control_plane |} [].
Proof.
  apply (RunChecks_true_whatever_fatal
           (checkers healthy_control_plane) _ []).
  - repeat constructor.
  - reflexivity.
Defined.

Lemma RunChecks_all_succeed_witness :
  (forall c, In c (checkers healthy_control_plane) -> always_succeeds c)
  /\ returned (RunChecks healthy_control_plane []) = Returns true.
Proof.
  assert (forall c, In c (checkers healthy_control_plane)
                    -> always_succeeds c) as H.
  { intros c [<-|[<-|[]]]; split; simpl; intros f w Hf;
      try discriminate; injection Hf as <-; try reflexivity.
    exists {| Results := [kubernetes_ok] |}. split; reflexivity. }
  split; [exact H|].
  exact (proj1 (proj2 (RunChecks_all_succeed healthy_control_plane [] H))).
Defined.

Lemma RunChecks_observations_attributed_witness :
  In prometheus_observation (observations (RunChecks api_then_version []))
  /\ exists c,
       In c (checkers api_then_version)
       /\ ((obs_category prometheus_observation = category c
            /\ obs_description prometheus_observation = description c
            /\ ((exists action w0,
                   check c = Some action
                   /\ obs_err prometheus_observation = fst (action w0))
                \/ (exists rpc w0,
                      checkRpc c = Some rpc
                      /\ obs_err prometheus_observation
                         = snd (fst (rpc w0)))))
           \/ exists rpc w0 rsp res,
                checkRpc c = Some rpc
                /\ fst (rpc w0) = (Some rsp, None)
                /\ In res (Results rsp)
                /\ obs_category prometheus_observation
                   = category c +++ "[" +++ SubsystemName res +++ "]"
                /\ obs_description prometheus_observation
                   = CheckDescription res
                /\ obs_err prometheus_observation
                   = match Status res with
                     | CheckStatus_OK => None
                     | _ => Some (fmt_Errorf (FriendlyMessageToUser res))
                     end).
Proof.
  assert (In prometheus_observation
             (observations (RunChecks api_then_version []))) as H.
  { simpl. do 3 right. left. reflexivity. }
  split; [exact H|].
  exact (RunChecks_observations_attributed api_then_version [] _ H).
Defined.

End HealthcheckExtra.

(** ** Further properties of the Kubernetes API probes *)

Module K8sExtra.

Import K8s K8sSpec K8sApi.

Local Open Scope Z_scope.

Section Http.

Variable Request : Type.
Variable Body : Type.
Variable url_Parse : string -> string + error.
Variable http_NewRequest : string -> string -> Request + error.
Variable ioutil_ReadAll : Body -> string + error.
Variable json_Unmarshal : string -> Info * option error.

Abbreviation GetVersionInfo :=
  (GetVersionInfo Request Body url_Parse http_NewRequest ioutil_ReadAll
     json_Unmarshal).
Abbreviation answers := (answers Request Body url_Parse http_NewRequest).
Abbreviation CheckNamespaceExists :=
  (CheckNamespaceExists Request url_Parse http_NewRequest).
Abbreviation responds := (responds Request url_Parse http_NewRequest).

Lemma GetVersionInfo_answered kubeapi (client : BodyClient Request Body)
    rsp body :
  answers kubeapi client rsp body ->
  GetVersionInfo kubeapi client
  = if negb (StatusCode rsp =? 200)
    then (None,
          Some (errorString
                  ("Unexpected Kubernetes API response: " +++ Status rsp)))
    else match ioutil_ReadAll body with
         | inr err => (None, Some err)
         | inl bytes =>
             let (versionInfo, err) := json_Unmarshal bytes in
             (Some versionInfo, err)
         end.
Proof.
  intros (endpoint & req & Hu & Hn & Hd). unfold K8sApi.GetVersionInfo.
  rewrite Hu, Hn, Hd. reflexivity.
Qed.

Lemma GetVersionInfo_info kubeapi (client : BodyClient Request Body)
    info err :
  GetVersionInfo kubeapi client = (Some info, err) ->
  exists rsp body bytes,
    answers kubeapi client rsp body /\ StatusCode rsp = 200
    /\ ioutil_ReadAll body = inl bytes
    /\ json_Unmarshal bytes = (info, err).
Proof.
  unfold K8sApi.GetVersionInfo, K8sApi.answers, StatusOK.
  destruct (url_Parse _) as [endpoint|e] eqn:Hu; [|discriminate].
  destruct (http_NewRequest _ endpoint) as [req|e] eqn:Hn; [|discriminate].
  destruct (client req) as [[rsp body]|e] eqn:Hd; [|discriminate].
  destruct (Z.eqb_spec (StatusCode rsp) 200) as [Hst|]; [|discriminate].
  simpl. destruct (ioutil_ReadAll body) as [bytes|e] eqn:Hb; [|discriminate].
  destruct (json_Unmarshal bytes) as [info' err'] eqn:Hj.
  intros H. injection H as -> ->.
  exists rsp, body, bytes. repeat split; auto.
  exists endpoint, req. auto.
Qed.

(** X13: [GetVersionInfo] returns version info with a nil error exactly
    when the API answers the version request with status 200, the body can
    be read and its bytes decode without error.  It never returns a nil
    pointer with a nil error, and it returns a pointer together with an
    error only when the decoding of a body that was read failed. *)
Theorem GetVersionInfo_success
    (kubeapi : kubernetesApi) (client : BodyClient Request Body) :
  (forall info,
     GetVersionInfo kubeapi client = (Some info, None) <->
     exists rsp body bytes,
       answers kubeapi client rsp body /\ StatusCode rsp = 200
       /\ ioutil_ReadAll body = inl bytes
       /\ json_Unmarshal bytes = (info, None))
  /\ GetVersionInfo kubeapi client <> (None, None)
  /\ (forall info e,
        GetVersionInfo kubeapi client = (Some info, Some e) ->
        exists rsp body bytes,
          answers kubeapi client rsp body
          /\ ioutil_ReadAll body = inl bytes
          /\ json_Unmarshal bytes = (info, Some e)).
Proof.
  split; [|split].
  - intros info. split.
    + apply GetVersionInfo_info.
    + intros (rsp & body & bytes & Ha & Hst & Hb & Hj).
      rewrite (GetVersionInfo_answered _ _ _ _ Ha), Hst, Hb, Hj.
      reflexivity.
  - unfold K8sApi.GetVersionInfo.
    destruct (url_Parse _) as [endpoint|e]; [|discriminate].
    destruct (http_NewRequest _ endpoint) as [req|e]; [|discriminate].
    destruct (client req) as [[rsp body]|e]; [|discriminate].
    destruct (negb _); [discriminate|].
    destruct (ioutil_ReadAll body) as [bytes|e]; [|discriminate].
    destruct (json_Unmarshal bytes). discriminate.
  - intros info e H.
    apply GetVersionInfo_info in H as (rsp & body & bytes & Ha & _ & Hb & Hj).
    eauto 6.
Qed.

(** X14: on an answer whose status is not 200, the status 404 included,
    [GetVersionInfo] returns a nil pointer and the error that carries the
    status text, whatever the body holds: the body is not read. *)
Theorem GetVersionInfo_unexpected_status
    (kubeapi : kubernetesApi) (client : BodyClient Request Body) rsp body :
  answers kubeapi client rsp body ->
  StatusCode rsp <> 200 ->
  GetVersionInfo kubeapi client
  = (None,
     Some (errorString
             ("Unexpected Kubernetes API response: " +++ Status rsp))).
Proof.
  intros Ha Hst. rewrite (GetVersionInfo_answered _ _ _ _ Ha).
  destruct (Z.eqb_spec (StatusCode rsp) 200); [contradiction|reflexivity].
Qed.

(** X15: the errors of [CheckNamespaceExists].  It returns the error [e]
    exactly when [e] is the error of [url.Parse], of [http.NewRequest] or
    of [client.Do], passed on as it is, or the API answered 404 and [e]
    says that the namespace does not exist, or the API answered another
    status than 200 and [e] carries the status text. *)
Theorem CheckNamespaceExists_errors
    (kubeapi : kubernetesApi) (client : Client Request) (namespace : string)
    (e : error) :
  CheckNamespaceExists kubeapi client namespace = Some e <->
  url_Parse (Host kubeapi +++ "/api/v1/namespaces/" +++ namespace) = inr e
  \/ (exists endpoint,
        url_Parse (Host kubeapi +++ "/api/v1/namespaces/" +++ namespace)
        = inl endpoint
        /\ http_NewRequest "GET" endpoint = inr e)
  \/ (exists endpoint req,
        url_Parse (Host kubeapi +++ "/api/v1/namespaces/" +++ namespace)
        = inl endpoint
        /\ http_NewRequest "GET" endpoint = inl req
        /\ client req = inr e)
  \/ (exists rsp,
        responds kubeapi client namespace rsp
        /\ StatusCode rsp = 404
        /\ e = errorString ("The " +++ dquote +++ namespace +++ dquote
                            +++ " namespace does not exist"))
  \/ (exists rsp,
        responds kubeapi client namespace rsp
        /\ StatusCode rsp <> 404 /\ StatusCode rsp <> 200
        /\ e = errorString ("Unexpected Kubernetes API response: "
                            +++ Status rsp)).
Proof.
  unfold K8s.CheckNamespaceExists, K8sSpec.responds, StatusNotFound, StatusOK.
  destruct (url_Parse _) as [endpoint|e0] eqn:Hu.
  - destruct (http_NewRequest _ endpoint) as [req|e0] eqn:Hn.
    + destruct (client req) as [rsp|e0] eqn:Hd.
      * destruct (Z.eqb_spec (StatusCode rsp) 404) as [H404|H404];
          [|destruct (Z.eqb_spec (StatusCode rsp) 200) as [H200|H200]];
          simpl.
        -- split.
           ++ intros H. injection H as <-. do 3 right. left.
              exists rsp. repeat split; auto. exists endpoint, req. auto.
           ++ intros H. decompose [or ex and] H; subst; congruence.
        -- split; [discriminate|].
           intros H. decompose [or ex and] H; subst; congruence.
        -- split.
           ++ intros H. injection H as <-. do 4 right.
              exists rsp. repeat split; auto. exists endpoint, req. auto.
           ++ intros H. decompose [or ex and] H; subst; congruence.
      * split.
        -- intros H. injection H as <-. do 2 right. left.
           exists endpoint, req. auto.
        -- intros H. decompose [or ex and] H; subst; congruence.
    + split.
      * intros H. injection H as <-. right. left. exists endpoint. auto.
      * intros H. decompose [or ex and] H; subst; congruence.
  - split.
    + intros H. injection H as <-. now left.
    + intros H. decompose [or ex and] H; subst; congruence.
Qed.

End Http.

Lemma GetVersionInfo_success_witness :
  GetVersionInfo string string inl
    (fun method url => inl (method +++ " " +++ url)) inl decode
    local_cluster (answering 200 "200 OK" "v1.9.3-gke.2")
  = (Some {| GitVersion := "v1.9.3-gke.2" |}, None).
Proof.
  apply (proj1 (GetVersionInfo_success string string inl
                  (fun method url => inl (method +++ " " +++ url))
                  inl decode local_cluster
                  (answering 200 "200 OK" "v1.9.3-gke.2"))).
  exists {| StatusCode := 200; Status := "200 OK" |},
         "v1.9.3-gke.2"%string, "v1.9.3-gke.2"%string.
  repeat split. do 2 eexists. repeat split.
Defined.

Lemma GetVersionInfo_unexpected_status_witness :
  GetVersionInfo string string inl
    (fun method url => inl (method +++ " " +++ url)) inl decode
    local_cluster (answering 404 "404 Not Found" "")
  = (None,
     Some (errorString "Unexpected Kubernetes API response: 404 Not Found")).
Proof.
  refine (GetVersionInfo_unexpected_status string string inl
            (fun method url => inl (method +++ " " +++ url)) inl decode
            local_cluster (answering 404 "404 Not Found" "")
            {| StatusCode := 404; Status := "404 Not Found" |} ""%string
            _ _).
  - do 2 eexists. repeat split.
  - discriminate.
Defined.

Lemma CheckNamespaceExists_errors_witness :
  CheckNamespaceExists string
    (fun _ => inr (errorString "invalid URL escape"))
    (fun method url => inl (method +++ " " +++ url))
    local_cluster not_found "linkerd%"
  = Some (errorString "invalid URL escape").
Proof.
  apply (proj2 (CheckNamespaceExists_errors string
                  (fun _ => inr (errorString "invalid URL escape"))
                  (fun method url => inl (method +++ " " +++ url))
                  local_cluster not_found "linkerd%"
                  (errorString "invalid URL escape"))).
  left. reflexivity.
Defined.

End K8sExtra.
